(** * Task-Scheduler: the slot forest of [main.c] and its scheduling loop

    A shallow embedding of [src/main.c]: the array of [slot_set] records, the
    disjoint-set procedures [make_set], [merge], [find_set], [unite], the
    diagnostic [display_all_sets], and the scheduling loop of [main].

    - [unsigned int] values are integers in [Z]; the arithmetic of the source
      that can wrap ([size - 1], [index - 1], [rank + 1]) goes through [u32].
    - The array [slot_set slot[size]] is a [list slot_set] read and written by
      index.  An index outside the array is undefined behaviour in C: the
      source gives no meaning to the run from that access on.  The model
      follows a run up to the first such access and answers [OutOfBounds]
      there; [OutOfBounds] says that the run reaches an access outside the
      array, not that the C program stops at it.  Accordingly [Ret] says
      that every access to [slot] and to [deadline_of_task] was inside its
      array.
    - The text buffers that [sprintf] fills are no part of the state of [M];
      their formats and sizes are modelled on their own ([task_description],
      [schedule_description], [table_field]).
    - [find_set] is recursive on the parent links, which is not structural:
      it takes a recursion budget and answers [OutOfFuel] when the budget
      is used up (the C program would keep recursing).
    - Procedures that read and write the array live in the state monad [M]. *)

From Stdlib Require Import ZArith Lia Ascii.
From stdpp Require Import base list numbers strings pretty.

Local Open Scope Z_scope.

(** ** Machine integers *)

Definition u32 (z : Z) : Z := z mod 2 ^ 32.

(** ** The data model *)

Record slot_set : Type := SlotSet {
  available_slot : Z;
  parent : Z;
  rank : Z
}.

Definition forest : Type := list slot_set.

Definition set_available_slot (v : Z) (s : slot_set) : slot_set :=
  {| available_slot := v; parent := parent s; rank := rank s |}.
Definition set_parent (v : Z) (s : slot_set) : slot_set :=
  {| available_slot := available_slot s; parent := v; rank := rank s |}.
Definition set_rank (v : Z) (s : slot_set) : slot_set :=
  {| available_slot := available_slot s; parent := parent s; rank := v |}.

(** Reading an array cell: [None] outside the array. *)
Definition get {A : Type} (l : list A) (i : Z) : option A :=
  if i <? 0 then None else l !! Z.to_nat i.

(** Writing an array cell that exists. *)
Definition put {A : Type} (l : list A) (i : Z) (x : A) : list A :=
  <[Z.to_nat i := x]> l.

(** ** Outcomes and the state monad over the slot array *)

Inductive outcome (A : Type) : Type :=
| Ret (a : A)
| OutOfBounds
| OutOfFuel.
Arguments Ret {A} a.
Arguments OutOfBounds {A}.
Arguments OutOfFuel {A}.

Definition M (A : Type) : Type := forest → outcome (A * forest).

Definition ret {A : Type} (a : A) : M A := fun f => Ret (a, f).

Definition bind {A B : Type} (m : M A) (k : A → M B) : M B :=
  fun f =>
    match m f with
    | Ret (a, f') => k a f'
    | OutOfBounds => OutOfBounds
    | OutOfFuel => OutOfFuel
    end.

Notation "'do' x <- m ; k" := (bind m (fun x => k))
  (at level 10, x name, m at level 100, k at level 200).

Definition diverge {A : Type} : M A := fun _ => OutOfFuel.

(** [slot[i]] as an rvalue.  Outside the array the access is undefined
    behaviour; the model does not follow the run further. *)
Definition load (i : Z) : M slot_set :=
  fun f => match get f i with Some s => Ret (s, f) | None => OutOfBounds end.

(** [slot[i].field = v], as the update [upd] of the record in cell [i];
    outside the array as for [load]. *)
Definition modify (i : Z) (upd : slot_set → slot_set) : M unit :=
  fun f =>
    match get f i with
    | Some s => Ret (tt, put f i (upd s))
    | None => OutOfBounds
    end.

Definition load_available_slot (i : Z) : M Z := do s <- load i ; ret (available_slot s).
Definition load_parent (i : Z) : M Z := do s <- load i ; ret (parent s).
Definition load_rank (i : Z) : M Z := do s <- load i ; ret (rank s).

Definition store_available_slot (i v : Z) : M unit := modify i (set_available_slot v).
Definition store_parent (i v : Z) : M unit := modify i (set_parent v).
Definition store_rank (i v : Z) : M unit := modify i (set_rank v).

(** ** The procedures of the source *)

(** [make_set]: lines 129-133. *)
Definition make_set (i : Z) : M unit :=
  do _ <- store_available_slot i i ;
  do _ <- store_parent i i ;
  store_rank i 0.

(** [merge]: lines 139-152. *)
Definition merge (i j : Z) : M unit :=
  do ri <- load_rank i ;
  do rj <- load_rank j ;
  if ri >? rj then
    do _ <- store_parent j i ;
    do a <- load_available_slot j ;
    store_available_slot i a
  else
    do _ <- store_parent i j ;
    do ri' <- load_rank i ;
    do rj' <- load_rank j ;
    if ri' =? rj' then
      do ri'' <- load_rank i ;
      store_rank j (u32 (ri'' + 1))
    else ret tt.

(** [find_set]: lines 154-161.  The recursive call consumes one unit of
    [fuel]. *)
Fixpoint find_set (fuel : nat) (i : Z) : M Z :=
  match fuel with
  | O => diverge
  | S fuel' =>
      do p <- load_parent i ;
      do _ <- (if negb (i =? p) then
                 do r <- find_set fuel' p ;
                 do _ <- store_parent i r ;
                 do p' <- load_parent i ;
                 do a <- load_available_slot p' ;
                 store_available_slot i a
               else ret tt) ;
      load_parent i
  end.

(** [unite]: lines 135-137.  C leaves the evaluation order of the two
    arguments open; the model evaluates them left to right, and
    [unite_right_to_left] is the other order.  On a forest both do the same
    (lemma [unite_order]). *)
Definition unite (fuel : nat) (i j : Z) : M unit :=
  do ri <- find_set fuel i ;
  do rj <- find_set fuel j ;
  merge ri rj.

Definition unite_right_to_left (fuel : nat) (i j : Z) : M unit :=
  do rj <- find_set fuel j ;
  do ri <- find_set fuel i ;
  merge ri rj.

(** [display_all_sets]: lines 163-201.  Only the third loop touches the
    array [slot]; it yields the row of the table it prints, one entry
    [slot[find_set(slot, i)].available_slot] per slot [i] (0-based).  The
    [sprintf] of lines 164-166 fills the local [table_field] and is not
    part of this function of the array: it is modelled by [table_field]
    and [table_field_size] below, and theorem [format_buffers_fit] tells
    when it stays inside its buffer. *)
Fixpoint display_loop (fuel : nat) (n : nat) (i : Z) : M (list Z) :=
  match n with
  | O => ret []
  | S n' =>
      do r <- find_set fuel i ;
      do a <- load_available_slot r ;
      do row <- display_loop fuel n' (i + 1) ;
      ret (a :: row)
  end.

Definition display_all_sets (fuel : nat) (size : Z) : M (list Z) :=
  display_loop fuel (Z.to_nat size) 0.

(** The initialisation loop of [main], lines 97-99. *)
Fixpoint make_loop (n : nat) (i : Z) : M unit :=
  match n with
  | O => ret tt
  | S n' => do _ <- make_set i ; make_loop n' (i + 1)
  end.

(** The array [slot_set slot[size]] before initialisation: [size] cells of
    indeterminate content [junk]. *)
Definition alloc (junk : slot_set) (size : Z) : forest :=
  replicate (Z.to_nat size) junk.

(** The diagnostic table, printed [diag] times ([main] prints it once per
    task, line 118). *)
Fixpoint repeat_display (fuel : nat) (size : Z) (diag : nat) : M unit :=
  match diag with
  | O => ret tt
  | S k => do _ <- display_all_sets fuel size ; repeat_display fuel size k
  end.

(** Line 109: the slot given to a task of deadline [d]. *)
Definition slot_to_schedule (fuel : nat) (d : Z) : M Z :=
  do r <- find_set fuel d ;
  load_available_slot r.

(** Lines 113-118: the assigned slot [a] of task [i] is united with its
    circular predecessor, except for the last task, and the table is
    displayed. *)
Definition retire_slot (fuel : nat) (size : Z) (diag : nat) (i a : Z) : M unit :=
  do _ <- (if negb (i =? u32 (size - 1)) then
             unite fuel a (if a =? 0 then u32 (size - 1) else u32 (a - 1))
           else ret tt) ;
  repeat_display fuel size diag.

(** The scheduling loop, lines 108-119: [n] iterations starting at task [i],
    with [diag i] displays after task [i].  It yields the assignments
    (task, slot) in the order they are printed, both 0-based, and how the
    loop ended; the assignments printed before the model leaves off
    ([OutOfBounds], [OutOfFuel]) are kept, as the lines already written to
    the terminal are. *)
Fixpoint schedule_loop (fuel : nat) (size : Z) (diag : Z → nat)
    (deadline_of_task : list Z) (n : nat) (i : Z) (slot : forest)
    : list (Z * Z) * outcome forest :=
  match n with
  | O => ([], Ret slot)
  | S n' =>
      match get deadline_of_task i with
      | None => ([], OutOfBounds)
      | Some d =>
          match slot_to_schedule fuel d slot with
          | Ret (a, slot1) =>
              match retire_slot fuel size (diag i) i a slot1 with
              | Ret (_, slot2) =>
                  let '(out, res) :=
                    schedule_loop fuel size diag deadline_of_task n' (i + 1) slot2 in
                  ((i, a) :: out, res)
              | OutOfBounds => ([(i, a)], OutOfBounds)
              | OutOfFuel => ([(i, a)], OutOfFuel)
              end
          | OutOfBounds => ([], OutOfBounds)
          | OutOfFuel => ([], OutOfFuel)
          end
      end
  end.

(** [main] from line 97 on, for a given [size] and deadline table: the
    array is allocated and initialised, then the first [n] tasks are
    scheduled.  [main] schedules all [size] of them. *)
Definition run_tasks (fuel : nat) (diag : Z → nat) (junk : slot_set) (size : Z)
    (deadline_of_task : list Z) (n : nat) : list (Z * Z) * outcome forest :=
  match make_loop (Z.to_nat size) 0 (alloc junk size) with
  | Ret (_, slot) => schedule_loop fuel size diag deadline_of_task n 0 slot
  | OutOfBounds => ([], OutOfBounds)
  | OutOfFuel => ([], OutOfFuel)
  end.

Definition run (fuel : nat) (diag : Z → nat) (junk : slot_set) (size : Z)
    (deadline_of_task : list Z) : list (Z * Z) * outcome forest :=
  run_tasks fuel diag junk size deadline_of_task (Z.to_nat size).

Definition main_diag : Z → nat := fun _ => 1%nat.

Definition scheduler (fuel : nat) (junk : slot_set) (size : Z)
    (deadline_of_task : list Z) : list (Z * Z) * outcome forest :=
  run fuel main_diag junk size deadline_of_task.

(** The default task table of [main], lines 61-72. *)
Definition default_size : Z := 10.
Definition default_deadlines : list Z := [0; 6; 1; 9; 2; 5; 3; 3; 6; 0].

(** ** Trees of the forest *)

(** [r] is the representative of a set: its own parent. *)
Definition root (f : forest) (r : Z) : Prop :=
  ∃ s, get f r = Some s ∧ parent s = r.

(** [path f l i r]: following the parent links from [i] leads to the root
    [r]; [l] lists the nodes passed on the way, [i] first, [r] excluded. *)
Inductive path (f : forest) : list Z → Z → Z → Prop :=
| path_root r s :
    get f r = Some s → parent s = r → path f [] r r
| path_step i s l r :
    get f i = Some s → parent s ≠ i → path f l (parent s) r →
    path f (i :: l) i r.

(** [r] is the root of the tree of [i]. *)
Definition reaches (f : forest) (i r : Z) : Prop := ∃ l, path f l i r.

(** The parent links form a forest over the slots [0 .. size-1]. *)
Definition wf_forest (size : Z) (f : forest) : Prop :=
  Z.of_nat (length f) = size ∧ ∀ i, 0 ≤ i < size → ∃ r, reaches f i r.

(** The record of a node after path compression under the root [r] whose
    record is [sr]. *)
Definition compressed_cell (sr : slot_set) (r : Z) (s : slot_set) : slot_set :=
  {| available_slot := available_slot sr; parent := r; rank := rank s |}.

(** [f'] is [f] with the nodes of [l] compressed under [r]. *)
Definition compressed (f : forest) (l : list Z) (r : Z) (f' : forest) : Prop :=
  length f' = length f ∧
  (∀ x, x ∈ l →
     ∃ s sr, get f x = Some s ∧ get f r = Some sr ∧
             get f' x = Some (compressed_cell sr r s)) ∧
  (∀ x, x ∉ l → get f' x = get f x).

(** Two states of the array with the same partition into sets and the same
    records at the roots. *)
Definition same_sets (f f' : forest) : Prop :=
  length f' = length f ∧
  (∀ i r, reaches f i r ↔ reaches f' i r) ∧
  (∀ r, root f r → get f' r = get f r).

(** The slot a set offers: the [available_slot] read at the root of [i]. *)
Definition resolves (f : forest) (i a : Z) : Prop :=
  ∃ r sr, reaches f i r ∧ get f r = Some sr ∧ available_slot sr = a.

(** [f'] is [f] after the root [c] was hung under the root [t], which now
    offers the slot [av]. *)
Definition linked (f : forest) (c t av : Z) (f' : forest) : Prop :=
  length f' = length f ∧
  (∃ s, get f' t = Some s ∧ parent s = t ∧ available_slot s = av) ∧
  (∃ s, get f' c = Some s ∧ parent s = t) ∧
  (∀ x, x ≠ c → x ≠ t → get f' x = get f x).

(** [f'] is [f] after some path compressions: same sets, same roots, and
    every cell either as it was or re-parented to its root with the root's
    [available_slot]. *)
Definition compression (f f' : forest) : Prop :=
  same_sets f f' ∧
  ∀ x sx, get f x = Some sx →
    get f' x = Some sx ∨
    ∃ r sr, reaches f x r ∧ get f r = Some sr ∧
            get f' x = Some (compressed_cell sr r sx).

(** The array after the initialisation loop of [main]: one singleton set
    per slot. *)
Definition singletons (size : Z) (f : forest) : Prop :=
  Z.of_nat (length f) = size ∧
  ∀ x, 0 ≤ x < size → get f x = Some (SlotSet x x 0).

(** ** The scheduling invariant *)

(** The slot before [a] on the circle of [size] slots. *)
Definition pred_slot (size a : Z) : Z := if a =? 0 then size - 1 else a - 1.

(** [j] lies after [a] and up to [i], going round the circle from [a]. *)
Definition between (size a j i : Z) : Prop :=
  (a ≤ i ∧ a < j ≤ i) ∨ (i < a ∧ (a < j < size ∨ 0 ≤ j ≤ i)).

(** The state of the array when the slots [taken] have been given to tasks:
    every slot [i] belongs to a tree whose root offers a slot [a] that is
    still free and belongs to the same tree, and all the slots after [a] up
    to [i], round the circle, are taken. *)
Definition Inv (size : Z) (taken : list Z) (f : forest) : Prop :=
  Z.of_nat (length f) = size ∧
  ∀ i, 0 ≤ i < size →
    ∃ r sr, reaches f i r ∧ get f r = Some sr ∧
      0 ≤ available_slot sr < size ∧
      (available_slot sr ∉ taken) ∧
      reaches f (available_slot sr) r ∧
      ∀ j, between size (available_slot sr) j i → j ∈ taken.

(** The greedy rule in the words of the specification: [a] is the latest
    slot at or before the deadline [d] that is not in [taken]; when every
    slot up to [d] is in [taken], it is the latest slot of all that is not. *)
Definition latest_free (size : Z) (taken : list Z) (d a : Z) : Prop :=
  0 ≤ a < size ∧ (a ∉ taken) ∧
  ((a ≤ d ∧ ∀ j, a < j ≤ d → j ∈ taken) ∨
   ((∀ j, 0 ≤ j ≤ d → j ∈ taken) ∧ ∀ j, a < j < size → j ∈ taken)).

(** A list of assignments that follows the greedy rule from task [i] on,
    [taken] being the slots given to the tasks before [i]. *)
Fixpoint greedy (size : Z) (deadline_of_task : list Z) (taken : list Z) (i : Z)
    (out : list (Z * Z)) : Prop :=
  match out with
  | [] => True
  | (k, a) :: out' =>
      k = i ∧
      (∃ d, get deadline_of_task i = Some d ∧ latest_free size taken d a) ∧
      greedy size deadline_of_task (a :: taken) (i + 1) out'
  end.

(** The deadlines of the tasks [i .. i+n-1] are slots. *)
Definition deadlines_in_range (size : Z) (deadline_of_task : list Z)
    (i : Z) (n : nat) : Prop :=
  ∀ k, i ≤ k < i + Z.of_nat n →
    ∃ d, get deadline_of_task k = Some d ∧ 0 ≤ d < size.

(** The input contract of the scheduler: [size] deadlines, each a slot. *)
Definition valid_deadlines (size : Z) (deadline_of_task : list Z) : Prop :=
  Z.of_nat (length deadline_of_task) = size ∧
  Forall (λ d, 0 ≤ d < size) deadline_of_task.

(** A checker for [wf_forest]: the root reached from [i] within [fuel]
    parent links, if any. *)
Fixpoint root_of (fuel : nat) (f : forest) (i : Z) : option Z :=
  match fuel with
  | O => None
  | S fuel' =>
      match get f i with
      | None => None
      | Some s => if parent s =? i then Some i else root_of fuel' f (parent s)
      end
  end.

Definition check_forest (f : forest) : bool :=
  forallb (λ i, bool_decide (is_Some (root_of (length f) f i)))
          (seqZ 0 (Z.of_nat (length f))).

(** ** Notions for the further properties *)

(** [i] and [j] belong to the same set. *)
Definition same_set (f : forest) (i j : Z) : Prop :=
  ∃ r, reaches f i r ∧ reaches f j r.

(** [x] is met when following the parent links from [i]: [i] itself, then
    the parent of every cell met. *)
Inductive follows (f : forest) (i : Z) : Z → Prop :=
| follows_here : follows f i i
| follows_link x s :
    follows f i x → get f x = Some s → follows f i (parent s).

(** The cell of [x] points directly at the root of its set and stores the
    slot that root offers. *)
Definition flat (f : forest) (x : Z) : Prop :=
  ∃ s sr, get f x = Some s ∧ get f (parent s) = Some sr ∧
          parent sr = parent s ∧ available_slot s = available_slot sr.

(** [f'] comes from [f] by calls, that return, of [find_set] and of
    [unite] on slots of different sets. *)
Inductive forest_ops (f : forest) : forest → Prop :=
| ops_none : forest_ops f f
| ops_find f1 f2 fuel i r :
    forest_ops f f1 → find_set fuel i f1 = Ret (r, f2) → forest_ops f f2
| ops_unite f1 f2 fuel i j :
    forest_ops f f1 → ¬ same_set f1 i j →
    unite fuel i j f1 = Ret (tt, f2) → forest_ops f f2.

(** Union by rank: ranks are not negative, grow strictly from a cell to
    its parent, and a root of rank [k] has at least [2^k] slots in its
    tree ([m] lists them). *)
Definition ranked (f : forest) : Prop :=
  (∀ x s, get f x = Some s → 0 ≤ rank s) ∧
  (∀ x s p, get f x = Some s → parent s ≠ x →
            get f (parent s) = Some p → rank s < rank p) ∧
  (∀ r sr, get f r = Some sr → parent sr = r →
     ∃ m, NoDup m ∧ (∀ i, i ∈ m ↔ reaches f i r) ∧
          2 ^ rank sr ≤ Z.of_nat (length m)).

(** [σ] gives every task a slot of its own, at or before its deadline:
    entry [t] of [σ] is the slot of task [t]. *)
Definition on_time_schedule (deadline_of_task σ : list Z) : Prop :=
  NoDup σ ∧ Forall2 (λ d a, 0 ≤ a ≤ d) deadline_of_task σ.

(** ** The rest of [main] *)

(** Lines 75-78: the deadlines of the random branch, [rand() % size] for
    each task.  [rands] are the values [rand()] returns, of type [int] and
    not negative; the operand is converted to [unsigned int]. *)
Definition random_deadlines (size : Z) (rands : list Z) : list Z :=
  (λ r, u32 r mod size) <$> rands.

(** What [sprintf] writes for a format made of plain characters, [%%] and
    [%u], without the terminating null character. *)
Fixpoint sprintf (format : string) (args : list Z) : string :=
  match format with
  | EmptyString => EmptyString
  | String "%"%char (String "%"%char rest) =>
      String "%"%char (sprintf rest args)
  | String "%"%char (String "u"%char rest) =>
      match args with
      | a :: args' => pretty a +:+ sprintf rest args'
      | [] => sprintf rest []
      end
  | String c rest => String c (sprintf rest args)
  end.

Definition newline : string := String (Ascii.ascii_of_nat 10) EmptyString.

(** The number of bytes a [sprintf] call stores, null character included. *)
Definition bytes_written (s : string) : Z := Z.of_nat (String.length s) + 1.

(** Lines 88-91, 104-107 and 165-166: the three format strings that
    [main] and [display_all_sets] build, and the lengths of the arrays
    they are built in.  [format_length] is [1 + (int)log10(size)], taken
    as given. *)
Definition task_description (format_length : Z) : string :=
  sprintf ("task %%%uu has deadline at time %%%uu" +:+ newline)
          [format_length; format_length].
Definition task_description_size (format_length : Z) : Z :=
  u32 (29 + 2 * format_length).

Definition schedule_description (format_length : Z) : string :=
  sprintf ("task %%%uu is scheduled in time slot %%%uu" +:+ newline)
          [format_length; format_length].
Definition schedule_description_size (format_length : Z) : Z :=
  u32 (34 + 2 * format_length).

Definition table_field (format_length : Z) : string :=
  sprintf "%%%uu" [format_length].
Definition table_field_size (format_length : Z) : Z :=
  u32 (format_length + 1).

(** ** Array cells *)

Section Cells.
Context {A : Type}.
Implicit Types (l : list A) (i j : Z) (x : A).

Lemma get_Some_range l i x :
  get l i = Some x → 0 ≤ i < Z.of_nat (length l).
Proof.
  unfold get. destruct (Z.ltb_spec i 0) as [Hi|Hi]; [discriminate|].
  intros Hx%lookup_lt_Some. lia.
Qed.

Lemma get_in_range l i :
  0 ≤ i < Z.of_nat (length l) → ∃ x, get l i = Some x.
Proof.
  intros Hi. unfold get. destruct (Z.ltb_spec i 0) as [Hn|Hn]; [lia|].
  apply lookup_lt_is_Some. lia.
Qed.

Lemma get_None_range l i :
  ¬ (0 ≤ i < Z.of_nat (length l)) → get l i = None.
Proof.
  intros Hi. destruct (get l i) eqn:E; [|done].
  apply get_Some_range in E. lia.
Qed.

Lemma length_put l i x : length (put l i x) = length l.
Proof. apply length_insert. Qed.

Lemma get_put_eq l i x y :
  get l i = Some y → get (put l i x) i = Some x.
Proof.
  intros H. pose proof (get_Some_range _ _ _ H) as Hr.
  unfold get, put. destruct (Z.ltb_spec i 0) as [Hn|Hn]; [lia|].
  apply list_lookup_insert_eq. lia.
Qed.

Lemma get_put_ne l i j x :
  0 ≤ i → i ≠ j → get (put l i x) j = get l j.
Proof.
  intros Hi Hne. unfold get, put. destruct (Z.ltb_spec j 0) as [Hn|Hn]; [done|].
  apply list_lookup_insert_ne. lia.
Qed.


Lemma get_ext l l' :
  (∀ i, get l i = get l' i) → l = l'.
Proof.
  intros H. apply list_eq. intros n.
  specialize (H (Z.of_nat n)). unfold get in H.
  destruct (Z.ltb_spec (Z.of_nat n) 0) as [Hn|Hn]; [lia|].
  by rewrite Nat2Z.id in H.
Qed.
End Cells.

(** ** Running the monad *)

Lemma bind_Ret {A B : Type} (m : M A) (k : A → M B) f a f' :
  m f = Ret (a, f') → bind m k f = k a f'.
Proof. unfold bind. by intros ->. Qed.

Lemma load_Ret f i s : get f i = Some s → load i f = Ret (s, f).
Proof. unfold load. by intros ->. Qed.

Lemma load_parent_Ret f i s :
  get f i = Some s → load_parent i f = Ret (parent s, f).
Proof. intros H. unfold load_parent. by rewrite (bind_Ret _ _ _ _ _ (load_Ret _ _ _ H)). Qed.

Lemma load_rank_Ret f i s :
  get f i = Some s → load_rank i f = Ret (rank s, f).
Proof. intros H. unfold load_rank. by rewrite (bind_Ret _ _ _ _ _ (load_Ret _ _ _ H)). Qed.

Lemma load_available_slot_Ret f i s :
  get f i = Some s → load_available_slot i f = Ret (available_slot s, f).
Proof.
  intros H. unfold load_available_slot.
  by rewrite (bind_Ret _ _ _ _ _ (load_Ret _ _ _ H)).
Qed.

Lemma modify_Ret f i upd s :
  get f i = Some s → modify i upd f = Ret (tt, put f i (upd s)).
Proof. unfold modify. by intros ->. Qed.

Lemma load_parent_None f i : get f i = None → load_parent i f = OutOfBounds.
Proof. intros H. unfold load_parent, bind, load. by rewrite H. Qed.

(** ** Paths *)

Lemma path_end_root f l i r : path f l i r → root f r.
Proof. induction 1; [by eexists|done]. Qed.

Lemma path_det f l i r :
  path f l i r → ∀ l' r', path f l' i r' → l' = l ∧ r' = r.
Proof.
  induction 1 as [r s Hs Hp|i s l r Hs Hp _ IH]; intros l' r' H'.
  - inversion H'; subst; [done|]. congruence.
  - inversion H' as [|? s' ? ? Hs' Hp' Hl']; subst; [congruence|].
    assert (s' = s) by congruence. subst s'.
    destruct (IH _ _ Hl') as [-> ->]. done.
Qed.

Lemma reaches_det f i r r' : reaches f i r → reaches f i r' → r = r'.
Proof. intros [l H] [l' H']. by destruct (path_det _ _ _ _ H _ _ H') as [_ ->]. Qed.

Lemma path_of_root f l r x : root f r → path f l r x → l = [] ∧ x = r.
Proof.
  intros (s & Hs & Hp) H. eapply path_det; [|exact H]. by econstructor.
Qed.

Lemma reaches_root f r : root f r → reaches f r r.
Proof. intros (s & Hs & Hp). exists []. by econstructor. Qed.

Lemma path_nodes f l i r x :
  path f l i r → x ∈ l →
  ∃ s l', get f x = Some s ∧ parent s ≠ x ∧ path f l' x r ∧
          (length l' ≤ length l)%nat.
Proof.
  induction 1 as [r s Hs Hp|i s l r Hs Hp Hl IH]; intros Hx.
  - by apply elem_of_nil in Hx.
  - apply elem_of_cons in Hx as [->|Hx].
    + exists s, (i :: l). split_and!; [done..| by econstructor |done].
    + destruct (IH Hx) as (sx & l' & ? & ? & ? & ?).
      exists sx, l'. split_and!; [done..|simpl; lia].
Qed.

Lemma path_root_not_in f l i r : path f l i r → r ∉ l.
Proof.
  intros H Hr. destruct (path_nodes _ _ _ _ _ H Hr) as (s & _ & Hs & Hp & _).
  destruct (path_end_root _ _ _ _ H) as (s' & Hs' & Hp'). congruence.
Qed.

Lemma path_NoDup f l i r : path f l i r → NoDup (r :: l).
Proof.
  intros H. apply list.NoDup_cons. split; [by eapply path_root_not_in|].
  induction H as [r s Hs Hp|i s l r Hs Hp Hl IH]; [constructor|].
  apply list.NoDup_cons. split; [|done].
  intros Hi. destruct (path_nodes _ _ _ _ _ Hl Hi) as (_ & l' & _ & _ & Hl' & Hlen).
  assert (H : path f (i :: l) i r) by by econstructor.
  destruct (path_det _ _ _ _ H _ _ Hl') as [-> _]. simpl in Hlen. lia.
Qed.

(** A path visits distinct cells of the array, so it is shorter than the
    array: this is the recursion depth [find_set] needs. *)
Lemma path_length f l i r :
  path f l i r → (length l < length f)%nat.
Proof.
  intros H.
  assert (Hsub : r :: l ⊆+ seqZ 0 (Z.of_nat (length f))).
  { apply NoDup_submseteq; [by eapply path_NoDup|].
    intros x Hx. apply elem_of_seqZ.
    apply elem_of_cons in Hx as [->|Hx].
    - destruct (path_end_root _ _ _ _ H) as (s & Hs & _).
      apply get_Some_range in Hs. lia.
    - destruct (path_nodes _ _ _ _ _ H Hx) as (s & _ & Hs & _).
      apply get_Some_range in Hs. lia. }
  apply submseteq_length in Hsub. rewrite length_seqZ in Hsub.
  simpl in Hsub. lia.
Qed.

(** ** [find_set] *)

(** Runs the first command of a sequence whose result is known. *)
Ltac run_with H := erewrite bind_Ret by (exact H).
Ltac run_get :=
  erewrite bind_Ret by
    first [ apply load_parent_Ret; eassumption
          | apply load_rank_Ret; eassumption
          | apply load_available_slot_Ret; eassumption
          | apply modify_Ret; eassumption ].

Lemma compressed_refl f r : compressed f [] r f.
Proof.
  split_and!; [done| |done]. intros x Hx. by apply elem_of_nil in Hx.
Qed.

(** On a tree, [find_set] returns the root and compresses the path, given
    a recursion budget larger than the length of the path. *)
Lemma find_set_path f l i r :
  path f l i r → ∀ fuel, (length l < fuel)%nat →
  ∃ f', find_set fuel i f = Ret (r, f') ∧ compressed f l r f'.
Proof.
  induction 1 as [r s Hs Hp|i s l r Hs Hp Hl IH]; intros [|fuel] Hfuel;
    try (simpl in Hfuel; lia).
  - exists f. split; [|apply compressed_refl]. simpl.
    run_get. rewrite Hp, Z.eqb_refl. simpl.
    run_with (eq_refl : ret tt f = Ret (tt, f)).
    rewrite (load_parent_Ret _ _ _ Hs). by rewrite Hp.
  - destruct (IH fuel) as (f1 & Hfind & Hlen1 & Hin1 & Hout1);
      [simpl in Hfuel; lia|].
    destruct (path_end_root _ _ _ _ Hl) as (sr & Hsr & Hpr).
    assert (Hir : i ≠ r) by congruence.
    assert (Hrl : r ∉ l) by by eapply path_root_not_in.
    assert (Hr1 : get f1 r = Some sr) by by rewrite Hout1.
    assert (∃ s1, get f1 i = Some s1 ∧ rank s1 = rank s) as (s1 & Hs1 & Hrk).
    { destruct (decide (i ∈ l)) as [Hi|Hi].
      - destruct (Hin1 _ Hi) as (s' & sr' & Hs' & _ & Hc).
        eexists. split; [exact Hc|]. simpl. congruence.
      - exists s. split; [|done]. by rewrite Hout1. }
    pose proof (get_Some_range _ _ _ Hs) as Hi0.
    set (f2 := put f1 i (set_parent r s1)).
    assert (Hi2 : get f2 i = Some (set_parent r s1))
      by by eapply get_put_eq.
    assert (Hr2 : get f2 r = Some sr)
      by (unfold f2; rewrite get_put_ne by lia; done).
    set (f3 := put f2 i (set_available_slot (available_slot sr) (set_parent r s1))).
    assert (Hi3 : get f3 i = Some (compressed_cell sr r s)).
    { unfold f3. erewrite get_put_eq by exact Hi2.
      unfold compressed_cell, set_available_slot, set_parent. simpl.
      by rewrite Hrk. }
    exists f3. split.
    + simpl. run_get.
      destruct (Z.eqb_spec i (parent s)) as [Heq|_]; [congruence|]. simpl.
      erewrite bind_Ret; [by rewrite (load_parent_Ret _ _ _ Hi3)|].
      run_with Hfind. unfold store_parent. run_get. fold f2.
      run_get. simpl. run_get.
      by apply modify_Ret.
    + split_and!.
      * unfold f3, f2. by rewrite !length_put.
      * intros x [->|Hx]%elem_of_cons; [by exists s, sr|].
        destruct (Hin1 _ Hx) as (sx & sr' & Hsx & Hsr' & Hc).
        exists sx, sr'. split_and!; [done..|].
        destruct (decide (x = i)) as [->|Hne].
        -- rewrite Hi3. f_equal. f_equal; congruence.
        -- unfold f3, f2. by rewrite !get_put_ne by lia.
      * intros x [Hxi Hxl]%not_elem_of_cons.
        unfold f3, f2. rewrite !get_put_ne by lia. by apply Hout1.
Qed.

(** Path compression keeps the partition and the records of the roots. *)
Lemma compressed_same_sets f l0 i0 r0 f' :
  path f l0 i0 r0 → compressed f l0 r0 f' → same_sets f f'.
Proof.
  intros H0 (Hlen & Hin & Hout).
  assert (Hroot0 : ∀ r, root f r → r ∉ l0).
  { intros r (s & Hs & Hp) Hr.
    destruct (path_nodes _ _ _ _ _ H0 Hr) as (s' & _ & Hs' & Hp' & _).
    congruence. }
  assert (Hkeep : ∀ r, root f r → get f' r = get f r)
    by (intros r Hr; by apply Hout, Hroot0).
  split_and!; [done| |done].
  intros i r. split; intros [l H].
  - induction H as [r s Hs Hp|i s l r Hs Hp Hl IH].
    + exists []. econstructor; [|done]. rewrite Hkeep; [done|by exists s].
    + destruct (decide (i ∈ l0)) as [Hi|Hi].
      * destruct (Hin _ Hi) as (s' & sr & Hs' & Hsr & Hc).
        destruct (path_nodes _ _ _ _ _ H0 Hi) as (_ & l' & _ & _ & Hl' & _).
        assert (Hil : path f (i :: l) i r) by exact (path_step _ _ _ _ _ Hs Hp Hl).
        destruct (path_det _ _ _ _ Hil _ _ Hl') as [_ Heq].
        rewrite <- Heq in *. clear Heq.
        destruct (path_end_root _ _ _ _ H0) as (sr' & Hsr' & Hpr').
        assert (i ≠ r0) by (intros ->; congruence).
        exists [i]. eapply path_step; [exact Hc|simpl; congruence|]. simpl.
        econstructor; [|exact Hpr']. rewrite Hkeep; [done|by exists sr'].
      * destruct IH as [l' IH]. exists (i :: l').
        econstructor; [by rewrite Hout|done..].
  - induction H as [r s Hs Hp|i s l r Hs Hp Hl IH].
    + destruct (decide (r ∈ l0)) as [Hr|Hr].
      * destruct (Hin _ Hr) as (s' & sr & Hs' & Hsr & Hc).
        rewrite Hs in Hc. injection Hc as ->. simpl in Hp. subst r0.
        by apply path_root_not_in in H0.
      * exists []. econstructor; [|done]. by rewrite <- Hout.
    + destruct (decide (i ∈ l0)) as [Hi|Hi].
      * destruct (Hin _ Hi) as (s' & sr & Hs' & Hsr & Hc).
        rewrite Hs in Hc. injection Hc as ->. simpl in *.
        destruct (path_nodes _ _ _ _ _ H0 Hi) as (_ & l' & _ & _ & Hl' & _).
        destruct IH as [l'' IH].
        destruct (path_of_root f l'' r0 r) as [_ ->];
          [by eapply path_end_root|done|]. by exists l'.
      * destruct IH as [l' IH]. exists (i :: l').
        econstructor; [by rewrite <- Hout|done..].
Qed.

Lemma same_sets_refl f : same_sets f f.
Proof. by split_and!. Qed.

Lemma same_sets_root f f' r : same_sets f f' → root f r ↔ root f' r.
Proof.
  intros (_ & Hreach & Hkeep). split.
  - intros Hr. destruct (Hr) as (s & Hs & Hp). exists s.
    by rewrite Hkeep.
  - intros Hr. apply reaches_root, Hreach in Hr as [l Hr].
    by eapply path_end_root.
Qed.

Lemma same_sets_trans f f' f'' :
  same_sets f f' → same_sets f' f'' → same_sets f f''.
Proof.
  intros H1 H2.
  destruct (H1) as (Hlen1 & Hreach1 & Hkeep1).
  destruct (H2) as (Hlen2 & Hreach2 & Hkeep2).
  split_and!; [congruence| |].
  - intros i r. by rewrite Hreach1.
  - intros r Hr. rewrite Hkeep2, Hkeep1; [done..|].
    by apply (same_sets_root _ _ _ H1).
Qed.


Lemma wf_forest_same_sets size f f' :
  wf_forest size f → same_sets f f' → wf_forest size f'.
Proof.
  intros [Hlen Hall] (Hlen' & Hreach & _). split; [lia|].
  intros i Hi. destruct (Hall i Hi) as [r Hr]. exists r. by apply Hreach.
Qed.

(** [find_set] on a slot of a tree, with a budget of the size of the
    array. *)
Lemma find_set_reaches f i r fuel :
  reaches f i r → (length f ≤ fuel)%nat →
  ∃ f', find_set fuel i f = Ret (r, f') ∧ same_sets f f'.
Proof.
  intros [l Hl] Hfuel.
  destruct (find_set_path _ _ _ _ Hl fuel) as (f' & Hfind & Hc).
  { apply path_length in Hl. lia. }
  exists f'. split; [done|]. by eapply compressed_same_sets.
Qed.

Lemma compression_refl f : compression f f.
Proof. split; [apply same_sets_refl|]. intros x sx Hx. by left. Qed.

Lemma compression_trans f f' f'' :
  compression f f' → compression f' f'' → compression f f''.
Proof.
  intros [Hs1 Hc1] [Hs2 Hc2]. split; [by eapply same_sets_trans|].
  destruct (Hs1) as (_ & Hreach & Hkeep).
  intros x sx Hx. destruct (Hc1 _ _ Hx) as [Hx'|(r & sr & Hr & Hsr & Hx')].
  - destruct (Hc2 _ _ Hx') as [Hx''|(r & sr & Hr & Hsr & Hx'')]; [by left|].
    right. exists r, sr. apply Hreach in Hr. split_and!; [done| |done].
    rewrite <- Hkeep; [done|]. destruct Hr as [l Hr]. by eapply path_end_root.
  - right. exists r, sr. split_and!; [done..|].
    destruct (Hc2 _ _ Hx') as [Hx''|(r' & sr' & Hr' & Hsr' & Hx'')]; [done|].
    apply Hreach in Hr'.
    assert (r' = r) by by eapply reaches_det. subst r'.
    rewrite Hkeep in Hsr' by (destruct Hr as [l Hr]; by eapply path_end_root).
    by assert (sr' = sr) as -> by congruence.
Qed.

Lemma find_set_compression f i r fuel :
  reaches f i r → (length f ≤ fuel)%nat →
  ∃ f', find_set fuel i f = Ret (r, f') ∧ compression f f'.
Proof.
  intros [l Hl] Hfuel.
  destruct (find_set_path _ _ _ _ Hl fuel) as (f' & Hfind & Hc).
  { apply path_length in Hl. lia. }
  exists f'. split; [done|]. split; [by eapply compressed_same_sets|].
  destruct Hc as (_ & Hin & Hout). intros x sx Hx.
  destruct (decide (x ∈ l)) as [Hxl|Hxl]; [right|left; by rewrite Hout].
  destruct (Hin x Hxl) as (s & sr & Hs & Hsr & Hc).
  destruct (path_nodes _ _ _ _ _ Hl Hxl) as (_ & l' & _ & _ & Hl' & _).
  exists r, sr. split_and!; [by exists l'|done|congruence].
Qed.

Lemma resolves_same_sets f f' i a :
  same_sets f f' → resolves f i a ↔ resolves f' i a.
Proof.
  intros H. destruct (H) as (Hlen & Hreach & Hkeep). split.
  - intros (r & sr & Hr & Hsr & Ha). exists r, sr. split_and!; [by apply Hreach| |done].
    rewrite Hkeep; [done|]. destruct Hr as [l Hr]. by eapply path_end_root.
  - intros (r & sr & Hr & Hsr & Ha). exists r, sr.
    apply Hreach in Hr. split_and!; [done| |done].
    rewrite <- Hkeep; [done|]. destruct Hr as [l Hr]. by eapply path_end_root.
Qed.

Lemma resolves_det f i a a' : resolves f i a → resolves f i a' → a = a'.
Proof.
  intros (r & sr & Hr & Hsr & Ha) (r' & sr' & Hr' & Hsr' & Ha').
  assert (r = r') by by eapply reaches_det. congruence.
Qed.

Lemma slot_to_schedule_resolves f d a fuel :
  resolves f d a → (length f ≤ fuel)%nat →
  ∃ f', slot_to_schedule fuel d f = Ret (a, f') ∧ same_sets f f'.
Proof.
  intros (r & sr & Hr & Hsr & Ha) Hfuel.
  destruct (find_set_reaches _ _ _ _ Hr Hfuel) as (f' & Hfind & Hsame).
  exists f'. split; [|done]. unfold slot_to_schedule. run_with Hfind.
  subst a. apply load_available_slot_Ret.
  destruct Hsame as (_ & _ & Hkeep). rewrite Hkeep; [done|].
  destruct Hr as [l Hr]. by eapply path_end_root.
Qed.

(** ** [merge] *)

Lemma u32_small z : 0 ≤ z < 2 ^ 32 → u32 z = z.
Proof. intros Hz. unfold u32. by apply Z.mod_small. Qed.

(** The array after [merge(slot, a, b)] on two different cells, cell by
    cell. *)
Lemma merge_cells f a b sa sb :
  get f a = Some sa → get f b = Some sb → a ≠ b →
  ∃ f', merge a b f = Ret (tt, f') ∧
        length f' = length f ∧
        (∀ x, x ≠ a → x ≠ b → get f' x = get f x) ∧
        (if rank sa >? rank sb
         then get f' b = Some (set_parent a sb) ∧
              get f' a = Some (set_available_slot (available_slot sb) sa)
         else get f' a = Some (set_parent b sa) ∧
              get f' b = Some (if rank sa =? rank sb
                               then set_rank (u32 (rank sa + 1)) sb
                               else sb)).
Proof.
  intros Ha Hb Hne.
  pose proof (get_Some_range _ _ _ Ha) as Ha0.
  pose proof (get_Some_range _ _ _ Hb) as Hb0.
  unfold merge. do 2 run_get.
  destruct (rank sa >? rank sb) eqn:Hgt.
  - set (f1 := put f b (set_parent a sb)).
    assert (Hb1 : get f1 b = Some (set_parent a sb)) by by eapply get_put_eq.
    assert (Ha1 : get f1 a = Some sa)
      by (unfold f1; by rewrite get_put_ne by lia).
    exists (put f1 a (set_available_slot (available_slot sb) sa)).
    split_and!.
    + unfold store_parent. run_get. fold f1. run_get. simpl.
      unfold store_available_slot. by apply modify_Ret.
    + unfold f1. by rewrite !length_put.
    + intros x Hxa Hxb. unfold f1. by rewrite !get_put_ne by lia.
    + by rewrite get_put_ne by lia.
    + by eapply get_put_eq.
  - set (f1 := put f a (set_parent b sa)).
    assert (Ha1 : get f1 a = Some (set_parent b sa)) by by eapply get_put_eq.
    assert (Hb1 : get f1 b = Some sb)
      by (unfold f1; by rewrite get_put_ne by lia).
    unfold store_parent. run_get. fold f1. do 2 run_get. simpl.
    destruct (rank sa =? rank sb) eqn:Heq.
    + exists (put f1 b (set_rank (u32 (rank sa + 1)) sb)). split_and!.
      * run_get. simpl. unfold store_rank. by apply modify_Ret.
      * unfold f1. by rewrite !length_put.
      * intros x Hxa Hxb. unfold f1. by rewrite !get_put_ne by lia.
      * by rewrite get_put_ne by lia.
      * by eapply get_put_eq.
    + exists f1. split_and!; [done| | |done..].
      * unfold f1. by rewrite !length_put.
      * intros x Hxa Hxb. unfold f1. by rewrite !get_put_ne by lia.
Qed.

(** [merge(slot, r, r)] on a single cell: the else branch, with equal
    ranks. *)
Lemma merge_same_cell f r sr :
  get f r = Some sr →
  merge r r f =
    Ret (tt, put f r (set_rank (u32 (rank sr + 1)) (set_parent r sr))).
Proof.
  intros Hr. unfold merge. do 2 run_get.
  replace (rank sr >? rank sr) with false by lia.
  set (f1 := put f r (set_parent r sr)).
  assert (Hr1 : get f1 r = Some (set_parent r sr)) by by eapply get_put_eq.
  unfold store_parent. run_get. fold f1. do 2 run_get. simpl.
  rewrite Z.eqb_refl. run_get. simpl. unfold store_rank.
  erewrite modify_Ret by exact Hr1. unfold f1, put.
  by rewrite list_insert_insert_eq.
Qed.

Lemma merge_linked f a b sa sb :
  get f a = Some sa → parent sa = a →
  get f b = Some sb → parent sb = b → a ≠ b →
  ∃ f' c t, merge a b f = Ret (tt, f') ∧
            (c = a ∧ t = b ∨ c = b ∧ t = a) ∧
            linked f c t (available_slot sb) f'.
Proof.
  intros Ha Hpa Hb Hpb Hne.
  destruct (merge_cells _ _ _ _ _ Ha Hb Hne) as (f' & Hm & Hlen & Hoth & Hcells).
  destruct (rank sa >? rank sb).
  - destruct Hcells as [Hb' Ha'].
    exists f', b, a. split_and!; [done|by right|]. split_and!; [done| | |].
    + by eexists.
    + by eexists.
    + intros x ??. by apply Hoth.
  - destruct Hcells as [Ha' Hb'].
    exists f', a, b. split_and!; [done|by left|]. split_and!; [done| | |].
    + eexists. split; [exact Hb'|]. by destruct (rank sa =? rank sb).
    + by eexists.
    + intros x ??. by apply Hoth.
Qed.

(** Where the paths lead after a link. *)
Lemma linked_reaches f c t av f' i x :
  root f c → root f t → c ≠ t → linked f c t av f' →
  reaches f i x →
  reaches f' i (if decide (x = c) then t else x).
Proof.
  intros Hc Ht Hne (Hlen & (st & Hst & Hpt & _) & (sc & Hsc & Hpc) & Hoth) [l H].
  assert (Htt : path f' [] t t) by by econstructor.
  induction H as [r s Hs Hp|i s l r Hs Hp Hl IH].
  - case_decide as Hrc; [rewrite Hrc|].
    + exists [c]. eapply path_step; [exact Hsc|congruence|by rewrite Hpc].
    + destruct (decide (r = t)) as [->|Hrt]; [by exists []|].
      exists []. econstructor; [|done]. by rewrite Hoth.
  - destruct IH as [l' IH].
    assert (i ≠ c) by (destruct Hc as (? & ? & ?); congruence).
    assert (i ≠ t) by (destruct Ht as (? & ? & ?); congruence).
    exists (i :: l'). econstructor; [by rewrite Hoth|done..].
Qed.

(** ** Initialisation *)

Lemma make_set_cell f i s :
  get f i = Some s → make_set i f = Ret (tt, put f i (SlotSet i i 0)).
Proof.
  intros Hs. unfold make_set, store_available_slot, store_parent, store_rank.
  run_get. erewrite bind_Ret by (eapply modify_Ret, get_put_eq, Hs).
  erewrite modify_Ret by (eapply get_put_eq, get_put_eq, Hs).
  unfold put. by rewrite !list_insert_insert_eq.
Qed.

Lemma make_loop_cells n : ∀ i f,
  0 ≤ i → i + Z.of_nat n ≤ Z.of_nat (length f) →
  ∃ f', make_loop n i f = Ret (tt, f') ∧
        length f' = length f ∧
        (∀ x, i ≤ x < i + Z.of_nat n → get f' x = Some (SlotSet x x 0)) ∧
        (∀ x, ¬ (i ≤ x < i + Z.of_nat n) → get f' x = get f x).
Proof.
  induction n as [|n IH]; intros i f Hi Hn.
  - exists f. split_and!; [done..| |done]. intros x Hx. lia.
  - destruct (get_in_range f i) as [s Hs]; [lia|].
    destruct (IH (i + 1) (put f i (SlotSet i i 0)))
      as (f' & Hrun & Hlen & Hin & Hout); [lia|rewrite length_put; lia|].
    exists f'. split_and!.
    + simpl. by run_with (make_set_cell _ _ _ Hs).
    + by rewrite Hlen, length_put.
    + intros x Hx. destruct (decide (x = i)) as [->|Hne].
      * rewrite Hout by lia. by eapply get_put_eq.
      * apply Hin. lia.
    + intros x Hx. rewrite Hout by lia. apply get_put_ne; lia.
Qed.

Lemma make_loop_alloc junk size :
  0 ≤ size →
  ∃ f, make_loop (Z.to_nat size) 0 (alloc junk size) = Ret (tt, f) ∧
       singletons size f.
Proof.
  intros Hsize.
  destruct (make_loop_cells (Z.to_nat size) 0 (alloc junk size))
    as (f & Hrun & Hlen & Hin & _); [lia| |].
  { unfold alloc. rewrite length_replicate. lia. }
  exists f. split; [done|]. split.
  - rewrite Hlen. unfold alloc. rewrite length_replicate. lia.
  - intros x Hx. apply Hin. lia.
Qed.

Lemma singletons_Inv size f : singletons size f → Inv size [] f.
Proof.
  intros [Hlen Hcells]. split; [done|]. intros i Hi.
  assert (reaches f i i).
  { exists []. econstructor; [by apply Hcells|done]. }
  exists i, (SlotSet i i 0). simpl.
  split_and!; [done|by apply Hcells|lia..| |done|].
  - by intros ?%elem_of_nil.
  - unfold between. intros j Hj. lia.
Qed.

(** ** The invariant under compression and under a link *)

Lemma Inv_wf size taken f : Inv size taken f → wf_forest size f.
Proof.
  intros [Hlen Hall]. split; [done|]. intros i Hi.
  destruct (Hall i Hi) as (r & _ & Hr & _). by exists r.
Qed.

Lemma Inv_same_sets size taken f f' :
  Inv size taken f → same_sets f f' → Inv size taken f'.
Proof.
  intros [Hlen Hall] (Hlen' & Hreach & Hkeep). split; [lia|].
  intros i Hi. destruct (Hall i Hi) as (r & sr & Hr & Hsr & Ha & Hfree & Har & Hbt).
  exists r, sr. split_and!; [by apply Hreach| |lia|lia|done|by apply Hreach|done].
  rewrite Hkeep; [done|]. destruct Hr as [l Hr]. by eapply path_end_root.
Qed.


Lemma between_glue size a a' j i :
  0 ≤ a < size → 0 ≤ a' < size → 0 ≤ i < size → a ≠ a' →
  between size a' j i →
  j = a ∨ between size a' j (pred_slot size a) ∨ between size a j i ∨
  between size a a' i.
Proof.
  unfold between, pred_slot. destruct (Z.eqb_spec a 0); lia.
Qed.

Lemma between_all size a j :
  0 ≤ a < size → 0 ≤ j < size → j ≠ a →
  between size a j (pred_slot size a).
Proof.
  unfold between, pred_slot. destruct (Z.eqb_spec a 0); lia.
Qed.

Lemma between_latest_free size taken d a :
  0 ≤ d < size → 0 ≤ a < size → a ∉ taken →
  (∀ j, between size a j d → j ∈ taken) →
  latest_free size taken d a.
Proof.
  intros Hd Ha Hfree Hbt. split_and!; [lia..|done|].
  destruct (Z.le_gt_cases a d).
  - left. split; [done|]. intros j Hj. apply Hbt. unfold between. lia.
  - right. split; intros j Hj; apply Hbt; unfold between; lia.
Qed.

(** A list that holds every slot has at least [size] entries. *)
Lemma covering_length size (l : list Z) :
  (∀ j, 0 ≤ j < size → j ∈ l) → size ≤ Z.of_nat (length l).
Proof.
  intros Hall.
  assert (Hsub : seqZ 0 size ⊆+ l).
  { apply NoDup_submseteq; [apply NoDup_seqZ|].
    intros x Hx%elem_of_seqZ. apply Hall. lia. }
  apply submseteq_length in Hsub. rewrite length_seqZ in Hsub. lia.
Qed.

(** The invariant after the slot [a] was given to a task and its tree was
    linked with the tree of the slot before it. *)
Lemma Inv_linked size taken f a a' r r' c t f' :
  Inv size taken f →
  resolves f a a → reaches f a r →
  resolves f (pred_slot size a) a' → reaches f (pred_slot size a) r' →
  0 ≤ a < size → 1 + Z.of_nat (length taken) < size →
  (c = r ∧ t = r' ∨ c = r' ∧ t = r) →
  linked f c t a' f' →
  Inv size (a :: taken) f'.
Proof.
  intros HInv Haa Har Hpa Hpr Ha Hlast Hct Hlink.
  assert (Hp : 0 ≤ pred_slot size a < size)
    by (unfold pred_slot; destruct (Z.eqb_spec a 0); lia).
  destruct (HInv) as [Hlen Hall].
  destruct (Hall _ Hp) as (x & sx & Hx & Hsx & Ha' & Hfree' & Ha'r & Hbt').
  assert (x = r') by exact (reaches_det _ _ _ _ Hx Hpr). subst x.
  assert (available_slot sx = a')
    by (eapply resolves_det; [|exact Hpa]; by exists r', sx).
  subst a'. remember (available_slot sx) as a' eqn:Heqa'.
  assert (Hne : a ≠ a').
  { intros <-. apply (Z.lt_irrefl size).
    eapply Z.le_lt_trans; [|exact Hlast].
    etrans; [apply (covering_length size (a :: taken))|simpl; lia].
    intros j Hj. apply elem_of_cons.
    destruct (decide (j = a)) as [|Hja]; [by left|right].
    by apply Hbt', between_all. }
  assert (Hrr : r ≠ r').
  { intros <-. apply Hne. eapply resolves_det; [exact Haa|].
    destruct Hpa as (r0 & sr0 & Hr0 & Hsr0 & Hav0).
    assert (r0 = r) by by eapply reaches_det. subst r0.
    by exists r, sr0. }
  assert (Hroots : root f r ∧ root f r').
  { destruct Har as [l Hl], Hpr as [l' Hl'].
    split; by eapply path_end_root. }
  assert (Hcroot : root f c ∧ root f t ∧ c ≠ t)
    by (destruct Hroots; destruct Hct as [[-> ->]|[-> ->]]; split_and!; done).
  destruct Hcroot as (Hc & Ht & Hctne).
  assert (Hto : ∀ i x, reaches f i x →
                  reaches f' i (if decide (x = c) then t else x))
    by (intros i x; by eapply linked_reaches).
  assert (Hjoin : ∀ i x, reaches f i x → x = r ∨ x = r' → reaches f' i t).
  { intros i y Hy Hor. specialize (Hto _ _ Hy). case_decide; [done|].
    destruct Hct as [[-> ->]|[-> ->]]; destruct Hor; congruence. }
  destruct (Hlink) as (Hlen' & (st & Hst & Hpt & Hat) & _ & Hoth).
  assert (Ha't : reaches f' a' t) by (eapply Hjoin; eauto).
  split; [lia|]. intros i Hi.
  destruct (Hall i Hi) as (x & sy & Hy & Hsy & Hay & Hfy & Hyy & Hbt).
  destruct (decide (x = r)) as [->|Hxr]; [|destruct (decide (x = r')) as [->|Hxr']].
  - assert (available_slot sy = a); [|subst a].
    { eapply resolves_det; [|exact Haa]. by exists r, sy. }
    exists t, st. rewrite Hat.
    split_and!; [by eapply Hjoin; eauto|done|lia|lia| |done|].
    + apply not_elem_of_cons. by split.
    + intros j Hj. apply elem_of_cons.
      destruct (between_glue size (available_slot sy) a' j i)
        as [->|[Hb|[Hb|Hb]]]; [lia..|done|by left| | |].
      * right. by apply Hbt'.
      * right. by apply Hbt.
      * destruct Hfree'. by apply Hbt.
  - assert (available_slot sy = a') by congruence.
    exists t, st. rewrite Hat.
    split_and!; [by eapply Hjoin; eauto|done|lia|lia| |done|].
    + apply not_elem_of_cons. by split.
    + intros j Hj. apply elem_of_cons. right. apply Hbt. congruence.
  - assert (Hxc : x ≠ c ∧ x ≠ t)
      by (destruct Hct as [[-> ->]|[-> ->]]; done).
    destruct Hxc as [Hxc Hxt].
    exists x, sy. split_and!.
    + specialize (Hto _ _ Hy). by case_decide.
    + by rewrite Hoth.
    + lia.
    + lia.
    + apply not_elem_of_cons. split; [|done]. intros Heq. apply Hxr.
      eapply (reaches_det f a); [by rewrite <- Heq|done].
    + specialize (Hto _ _ Hyy). by case_decide.
    + intros j Hj. apply elem_of_cons. right. by apply Hbt.
Qed.

(** ** The diagnostic *)

Lemma display_loop_spec fuel size n : ∀ i f,
  wf_forest size f → (length f ≤ fuel)%nat →
  0 ≤ i → i + Z.of_nat n ≤ size →
  ∃ row f', display_loop fuel n i f = Ret (row, f') ∧
            compression f f' ∧ length row = n ∧
            ∀ (k : nat) a, row !! k = Some a → resolves f (i + Z.of_nat k) a.
Proof.
  induction n as [|n IH]; intros i f Hwf Hfuel Hi Hn.
  - exists [], f. split_and!; [done|apply compression_refl|done|].
    intros k a Hk. by rewrite lookup_nil in Hk.
  - destruct (Hwf) as [Hlen Hall].
    destruct (Hall i) as [r Hr]; [lia|].
    destruct (find_set_compression _ _ _ _ Hr Hfuel) as (f1 & Hfind & Hcomp1).
    destruct (Hcomp1) as [Hsame1 _].
    assert (Hroot : root f r) by (destruct Hr as [l Hr]; by eapply path_end_root).
    destruct (Hroot) as (sr & Hsr & Hpr).
    assert (Hsr1 : get f1 r = Some sr).
    { destruct Hsame1 as (_ & _ & Hkeep). by rewrite Hkeep. }
    destruct (IH (i + 1) f1) as (row & f' & Hrun & Hcomp' & Hlen' & Hrow).
    { by eapply wf_forest_same_sets. }
    { destruct Hsame1 as (-> & _). done. }
    { lia. }
    { lia. }
    exists (available_slot sr :: row), f'. split_and!.
    + simpl. run_with Hfind. run_get. by run_with Hrun.
    + by eapply compression_trans.
    + simpl. by rewrite Hlen'.
    + intros [|k] a Hk; simpl in Hk.
      * injection Hk as <-. rewrite Z.add_0_r. by exists r, sr.
      * apply Hrow in Hk. apply (resolves_same_sets _ _ _ _ Hsame1).
        by replace (i + Z.of_nat (S k)) with (i + 1 + Z.of_nat k) by lia.
Qed.

Lemma display_all_sets_spec fuel size f :
  wf_forest size f → (length f ≤ fuel)%nat →
  ∃ row f', display_all_sets fuel size f = Ret (row, f') ∧
            compression f f' ∧ length row = Z.to_nat size ∧
            ∀ (k : nat) a, row !! k = Some a → resolves f (Z.of_nat k) a.
Proof.
  intros Hwf Hfuel. unfold display_all_sets.
  destruct (display_loop_spec fuel size (Z.to_nat size) 0 f)
    as (row & f' & ? & ? & ? & Hrow); [done..| |by exists row, f'].
  destruct Hwf as [<- _]. lia.
Qed.

Lemma repeat_display_spec fuel size diag : ∀ f,
  wf_forest size f → (length f ≤ fuel)%nat →
  ∃ f', repeat_display fuel size diag f = Ret (tt, f') ∧ compression f f'.
Proof.
  induction diag as [|diag IH]; intros f Hwf Hfuel.
  - exists f. split; [done|apply compression_refl].
  - destruct (display_all_sets_spec _ _ _ Hwf Hfuel)
      as (row & f1 & Hrun & Hcomp & _).
    destruct (Hcomp) as [Hsame _].
    destruct (IH f1) as (f' & Hrun' & Hcomp').
    { by eapply wf_forest_same_sets. }
    { destruct Hsame as (-> & _). done. }
    exists f'. split; [|by eapply compression_trans].
    simpl. by run_with Hrun.
Qed.

(** ** [unite] *)

Lemma unite_distinct fuel f i j ri rj :
  reaches f i ri → reaches f j rj → ri ≠ rj → (length f ≤ fuel)%nat →
  ∃ f1 f' c t sj,
    unite fuel i j f = Ret (tt, f') ∧ same_sets f f1 ∧
    get f rj = Some sj ∧
    (c = ri ∧ t = rj ∨ c = rj ∧ t = ri) ∧
    linked f1 c t (available_slot sj) f'.
Proof.
  intros Hi Hj Hne Hfuel.
  destruct (find_set_reaches _ _ _ _ Hi Hfuel) as (fi & Hfi & Hsi).
  assert (Hj' : reaches fi j rj) by (destruct Hsi as (_ & Hreach & _); by apply Hreach).
  destruct (find_set_reaches fi j rj fuel Hj') as (fj & Hfj & Hsj).
  { destruct Hsi as (-> & _). done. }
  pose proof (same_sets_trans _ _ _ Hsi Hsj) as Hs.
  assert (Hri : root f ri) by (destruct Hi as [l Hl]; by eapply path_end_root).
  assert (Hrj : root f rj) by (destruct Hj as [l Hl]; by eapply path_end_root).
  destruct (Hri) as (si & Hgi & Hpi). destruct (Hrj) as (sj & Hgj & Hpj).
  destruct (Hs) as (_ & _ & Hkeep).
  destruct (merge_linked fj ri rj si sj) as (f' & c & t & Hm & Hct & Hlink);
    [by rewrite Hkeep|done|by rewrite Hkeep|done..|].
  exists fj, f', c, t, sj. split_and!; [|done..].
  unfold unite. run_with Hfi. by run_with Hfj.
Qed.

(** *** The order of evaluation of the arguments of [merge] *)

Lemma path_nodes_sub f l i r x :
  path f l i r → x ∈ l →
  ∃ l', path f l' x r ∧ ∀ y, y ∈ l' → y ∈ l.
Proof.
  induction 1 as [r s Hs Hp|i s l r Hs Hp Hl IH]; intros Hx.
  - by apply elem_of_nil in Hx.
  - apply elem_of_cons in Hx as [->|Hx].
    + exists (i :: l). split; [by econstructor|done].
    + destruct (IH Hx) as (l' & Hl' & Hsub). exists l'. split; [done|].
      intros y Hy. right. by apply Hsub.
Qed.

(** The path of [j] after the path [li] was compressed: a shortcut of its
    path before. *)
Lemma path_after_compressed f li i ri f1 lj j rj :
  path f li i ri → compressed f li ri f1 → path f lj j rj →
  ∃ lj', path f1 lj' j rj ∧
         (∀ x, x ∈ lj' → x ∈ lj) ∧
         (∀ x, x ∈ lj → x ∈ lj' ∨ x ∈ li).
Proof.
  intros Hi Hc. pose proof (compressed_same_sets _ _ _ _ _ Hi Hc) as Hsame.
  destruct Hc as (_ & Hin & Hout).
  induction 1 as [r s Hs Hp|j s l r Hs Hp Hl IH].
  - exists []. split_and!; [|done|by intros x ?%elem_of_nil].
    destruct Hsame as (_ & _ & Hkeep).
    econstructor; [|done]. rewrite Hkeep; [done|by exists s].
  - destruct IH as (l' & Hl' & Hsub & Hcov).
    assert (Hjl : path f (j :: l) j r) by by econstructor.
    destruct (decide (j ∈ li)) as [Hj|Hj].
    + destruct (Hin _ Hj) as (s' & sr & Hs' & Hsr & Hcell).
      destruct (path_nodes_sub _ _ _ _ _ Hi Hj) as (l0 & Hl0 & Hsub0).
      destruct (path_det _ _ _ _ Hjl _ _ Hl0) as [-> Heq].
      rewrite <- Heq in *. clear Heq.
      assert (Hroot : path f1 [] ri ri).
      { destruct (path_end_root _ _ _ _ Hl') as (sr' & ? & ?). by econstructor. }
      destruct (path_end_root _ _ _ _ Hi) as (sri & Hsri & Hpri).
      exists [j]. split_and!.
      * eapply path_step; [exact Hcell| |done]. simpl. intros <-. congruence.
      * intros x [->|[]%elem_of_nil]%elem_of_cons. by left.
      * intros x Hx. right. by apply Hsub0.
    + exists (j :: l'). split_and!.
      * econstructor; [by rewrite Hout|done..].
      * intros x [->|Hx]%elem_of_cons; [by left|right; by apply Hsub].
      * intros x [->|Hx]%elem_of_cons; [left; by left|].
        destruct (Hcov _ Hx); [left; by right|by right].
Qed.

(** Two calls of [find_set] in a row: both paths end up compressed. *)
Lemma find_set_twice f i j ri rj li lj sri srj fuel :
  path f li i ri → path f lj j rj →
  get f ri = Some sri → get f rj = Some srj → (length f ≤ fuel)%nat →
  ∃ f1 f2,
    find_set fuel i f = Ret (ri, f1) ∧ find_set fuel j f1 = Ret (rj, f2) ∧
    ∀ x, get f2 x =
         if decide (x ∈ li) then compressed_cell sri ri <$> get f x
         else if decide (x ∈ lj) then compressed_cell srj rj <$> get f x
         else get f x.
Proof.
  intros Hi Hj Hsri Hsrj Hfuel.
  destruct (find_set_path _ _ _ _ Hi fuel) as (f1 & Hfi & Hc1).
  { apply path_length in Hi. lia. }
  destruct (path_after_compressed _ _ _ _ _ _ _ _ Hi Hc1 Hj)
    as (lj' & Hj' & Hsub & Hcov).
  destruct (find_set_path _ _ _ _ Hj' fuel) as (f2 & Hfj & Hc2).
  { apply path_length in Hj'. destruct Hc1 as (Hlen1 & _). lia. }
  exists f1, f2. split_and!; [done..|]. intros x.
  destruct (Hc1) as (_ & Hin1 & Hout1). destruct Hc2 as (_ & Hin2 & Hout2).
  assert (Hrj1 : get f1 rj = Some srj).
  { rewrite Hout1; [done|]. intros Hr.
    destruct (path_nodes _ _ _ _ _ Hi Hr) as (s & _ & Hs & Hp & _).
    destruct (path_end_root _ _ _ _ Hj) as (s' & Hs' & Hp'). congruence. }
  destruct (decide (x ∈ li)) as [Hxi|Hxi].
  - destruct (Hin1 _ Hxi) as (s & sr & Hs & Hsr & Hcell).
    assert (sr = sri) as -> by congruence. rewrite Hs. simpl.
    destruct (decide (x ∈ lj')) as [Hxj|Hxj]; [|by rewrite Hout2].
    destruct (Hin2 _ Hxj) as (s1 & sr1 & Hs1 & Hsr1 & ->).
    assert (sr1 = srj) as -> by congruence.
    assert (s1 = compressed_cell sri ri s) as -> by congruence.
    destruct (path_nodes_sub _ _ _ _ _ Hi Hxi) as (l0 & Hl0 & _).
    destruct (path_nodes_sub _ _ _ _ _ Hj (Hsub _ Hxj)) as (l1 & Hl1 & _).
    destruct (path_det _ _ _ _ Hl0 _ _ Hl1) as [_ ->].
    by assert (srj = sri) as -> by congruence.
  - destruct (decide (x ∈ lj)) as [Hxj|Hxj].
    + destruct (Hcov _ Hxj) as [Hxj'|]; [|done].
      destruct (Hin2 _ Hxj') as (s1 & sr1 & Hs1 & Hsr1 & ->).
      assert (sr1 = srj) as -> by congruence.
      rewrite Hout1 in Hs1 by done. by rewrite Hs1.
    + rewrite Hout2, Hout1; [done..|]. intros Hxj'. by apply Hxj, Hsub.
Qed.

(** On a forest, [unite] does the same whichever argument of [merge] is
    evaluated first. *)
Lemma unite_order fuel f i j ri rj :
  reaches f i ri → reaches f j rj → (length f ≤ fuel)%nat →
  unite_right_to_left fuel i j f = unite fuel i j f.
Proof.
  intros [li Hi] [lj Hj] Hfuel.
  destruct (path_end_root _ _ _ _ Hi) as (sri & Hsri & _).
  destruct (path_end_root _ _ _ _ Hj) as (srj & Hsrj & _).
  destruct (find_set_twice f i j ri rj li lj sri srj fuel)
    as (f1 & f2 & Hf1 & Hf2 & Hcells); [done..|].
  destruct (find_set_twice f j i rj ri lj li srj sri fuel)
    as (g1 & g2 & Hg1 & Hg2 & Hcells'); [done..|].
  assert (g2 = f2) as ->.
  { apply get_ext. intros x. rewrite Hcells, Hcells'.
    destruct (decide (x ∈ li)) as [Hxi|Hxi], (decide (x ∈ lj)) as [Hxj|Hxj];
      try done.
    destruct (path_nodes_sub _ _ _ _ _ Hi Hxi) as (l0 & Hl0 & _).
    destruct (path_nodes_sub _ _ _ _ _ Hj Hxj) as (l1 & Hl1 & _).
    destruct (path_det _ _ _ _ Hl0 _ _ Hl1) as [_ ->].
    by assert (srj = sri) as -> by congruence. }
  unfold unite, unite_right_to_left.
  run_with Hg1. run_with Hg2. run_with Hf1. by run_with Hf2.
Qed.

(** ** One iteration of the scheduling loop *)

Lemma retire_slot_last fuel size diag i a f :
  wf_forest size f → (length f ≤ fuel)%nat → i = u32 (size - 1) →
  ∃ f', retire_slot fuel size diag i a f = Ret (tt, f') ∧ same_sets f f'.
Proof.
  intros Hwf Hfuel ->. unfold retire_slot. rewrite Z.eqb_refl. simpl.
  run_with (eq_refl : ret tt f = Ret (tt, f)).
  destruct (repeat_display_spec fuel size diag f) as (f' & Hrun & [Hsame _]);
    [done..|].
  by exists f'.
Qed.

Lemma retire_slot_Inv fuel size diag taken i a f :
  Inv size taken f → resolves f a a → 0 ≤ a < size →
  size < 2 ^ 32 → i = Z.of_nat (length taken) → i + 1 < size →
  (length f ≤ fuel)%nat →
  ∃ f', retire_slot fuel size diag i a f = Ret (tt, f') ∧
        Inv size (a :: taken) f'.
Proof.
  intros HInv Haa Ha Hsize Hi Hnot_last Hfuel.
  assert (Hu : u32 (size - 1) = size - 1) by (apply u32_small; lia).
  assert (Hpred : (if a =? 0 then u32 (size - 1) else u32 (a - 1))
                  = pred_slot size a).
  { unfold pred_slot. destruct (Z.eqb_spec a 0); [done|]. apply u32_small. lia. }
  assert (Hp : 0 ≤ pred_slot size a < size)
    by (unfold pred_slot; destruct (Z.eqb_spec a 0); lia).
  destruct (HInv) as [Hlen Hall].
  destruct (Hall _ Hp) as (r' & sr' & Hr' & Hsr' & _ & Hfree' & _ & Hbt').
  destruct (Haa) as (r & sr & Hr & Hsr & Hav).
  assert (Hne : r ≠ r').
  { intros <-. assert (sr' = sr) by congruence. subst sr'.
    apply (Z.lt_irrefl size). eapply Z.le_lt_trans; [|exact Hnot_last].
    etrans; [apply (covering_length size (a :: taken))|simpl; lia].
    intros j Hj. apply elem_of_cons.
    destruct (decide (j = a)) as [|Hja]; [by left|right].
    apply Hbt'. rewrite Hav. by apply between_all. }
  destruct (unite_distinct fuel f a (pred_slot size a) r r')
    as (f1 & f2 & c & t & sj & Hun & Hsame & Hsj & Hct & Hlink); [done..|].
  assert (sj = sr') by congruence. subst sj.
  assert (HInv2 : Inv size (a :: taken) f2).
  { eapply (Inv_linked size taken f1 a (available_slot sr') r r').
    - by eapply Inv_same_sets.
    - by apply (resolves_same_sets _ _ _ _ Hsame).
    - destruct Hsame as (_ & Hreach & _). by apply Hreach.
    - apply (resolves_same_sets _ _ _ _ Hsame). by exists r', sr'.
    - destruct Hsame as (_ & Hreach & _). by apply Hreach.
    - done.
    - lia.
    - exact Hct.
    - done. }
  destruct (repeat_display_spec fuel size diag f2) as (f' & Hrun & [Hsame' _]).
  { by eapply Inv_wf. }
  { destruct Hlink as (-> & _). destruct Hsame as (-> & _). done. }
  exists f'. split; [|by eapply Inv_same_sets].
  unfold retire_slot. destruct (Z.eqb_spec i (u32 (size - 1))) as [Heq|_]; [lia|].
  simpl. rewrite Hpred. by run_with Hun.
Qed.

Lemma schedule_iteration fuel size diag taken i d f :
  Inv size taken f → 1 ≤ size < 2 ^ 32 → (Z.to_nat size ≤ fuel)%nat →
  i = Z.of_nat (length taken) → i < size → 0 ≤ d < size →
  ∃ a f1 f2,
    slot_to_schedule fuel d f = Ret (a, f1) ∧
    retire_slot fuel size diag i a f1 = Ret (tt, f2) ∧
    latest_free size taken d a ∧
    wf_forest size f2 ∧
    (i + 1 < size → Inv size (a :: taken) f2).
Proof.
  intros HInv Hsize Hfuel Hi Hlt Hd.
  destruct (HInv) as [Hlen Hall].
  destruct (Hall _ Hd) as (r & sr & Hr & Hsr & Ha & Hfree & Har & Hbt).
  destruct (slot_to_schedule_resolves f d (available_slot sr) fuel)
    as (f1 & Hpick & Hsame1); [by exists r, sr|lia|].
  pose proof (Inv_same_sets _ _ _ _ HInv Hsame1) as HInv1.
  assert (Hlen1 : (length f1 ≤ fuel)%nat)
    by (destruct Hsame1 as (-> & _); lia).
  exists (available_slot sr), f1.
  destruct (decide (i + 1 < size)) as [Hnl|Hl].
  - destruct (retire_slot_Inv fuel size diag taken i (available_slot sr) f1)
      as (f2 & Hret & HInv2); [done| |done|lia|done..|].
    { apply (resolves_same_sets _ _ _ _ Hsame1). by exists r, sr. }
    exists f2. split_and!; [done..|by apply between_latest_free|by eapply Inv_wf|done].
  - destruct (retire_slot_last fuel size diag i (available_slot sr) f1)
      as (f2 & Hret & Hsame2); [by eapply Inv_wf|done| |].
    { rewrite u32_small; lia. }
    exists f2. split_and!; [done..|by apply between_latest_free| |done].
    eapply wf_forest_same_sets; [|done]. by eapply Inv_wf.
Qed.

(** ** The scheduling loop *)

Lemma schedule_loop_spec fuel size diag ds n : ∀ i taken f,
  Inv size taken f → 1 ≤ size < 2 ^ 32 → (Z.to_nat size ≤ fuel)%nat →
  i = Z.of_nat (length taken) → i + Z.of_nat n ≤ size →
  deadlines_in_range size ds i n →
  ∃ out f',
    schedule_loop fuel size diag ds n i f = (out, Ret f') ∧
    length out = n ∧
    greedy size ds taken i out ∧
    wf_forest size f' ∧
    (i + Z.of_nat n < size → Inv size (reverse out.*2 ++ taken) f').
Proof.
  induction n as [|n IH]; intros i taken f HInv Hsize Hfuel Hi Hn Hds.
  - exists [], f. split_and!; [done..|by eapply Inv_wf|done].
  - destruct (Hds i) as (d & Hd & Hdr); [lia|].
    destruct (schedule_iteration fuel size (diag i) taken i d f)
      as (a & f1 & f2 & Hpick & Hret & Hlatest & Hwf2 & HInv2); [done..|lia|done|].
    assert (Hds' : deadlines_in_range size ds (i + 1) n)
      by (intros k Hk; apply Hds; lia).
    destruct n as [|n].
    + exists [(i, a)], f2. split_and!.
      * simpl. by rewrite Hd, Hpick, Hret.
      * done.
      * simpl. split_and!; [done|by exists d|done].
      * done.
      * intros Hlt. apply HInv2. lia.
    + destruct (IH (i + 1) (a :: taken) f2)
        as (out & f' & Hrun & Hlen & Hgreedy & Hwf' & HInv');
        [apply HInv2; lia|done..|simpl; lia|lia|done|].
      exists ((i, a) :: out), f'. split_and!.
      * change (schedule_loop fuel size diag ds (S (S n)) i f)
          with (match get ds i with
                | None => ([], OutOfBounds)
                | Some d =>
                    match slot_to_schedule fuel d f with
                    | Ret (a, slot1) =>
                        match retire_slot fuel size (diag i) i a slot1 with
                        | Ret (_, slot2) =>
                            let '(out, res) :=
                              schedule_loop fuel size diag ds (S n) (i + 1) slot2 in
                            ((i, a) :: out, res)
                        | OutOfBounds => ([(i, a)], OutOfBounds)
                        | OutOfFuel => ([(i, a)], OutOfFuel)
                        end
                    | OutOfBounds => ([], OutOfBounds)
                    | OutOfFuel => ([], OutOfFuel)
                    end
                end).
        by rewrite Hd, Hpick, Hret, Hrun.
      * simpl. by rewrite Hlen.
      * simpl. split_and!; [done|by exists d|done].
      * done.
      * intros Hlt. rewrite fmap_cons, reverse_cons, <- app_assoc. simpl.
        apply HInv'. lia.
Qed.

Lemma schedule_loop_app fuel size diag ds n m : ∀ i f,
  schedule_loop fuel size diag ds (n + m) i f =
    match schedule_loop fuel size diag ds n i f with
    | (out, Ret f') =>
        let '(out', res) :=
          schedule_loop fuel size diag ds m (i + Z.of_nat n) f' in
        (out ++ out', res)
    | (out, OutOfBounds) => (out, OutOfBounds)
    | (out, OutOfFuel) => (out, OutOfFuel)
    end.
Proof.
  induction n as [|n IH]; intros i f.
  - simpl. rewrite Z.add_0_r. by destruct (schedule_loop _ _ _ _ m i f).
  - simpl. destruct (get ds i) as [d|]; [|done].
    destruct (slot_to_schedule fuel d f) as [[a f1]| |]; [|done..].
    destruct (retire_slot fuel size (diag i) i a f1) as [[[] f2]| |]; [|done..].
    rewrite IH.
    destruct (schedule_loop fuel size diag ds n (i + 1) f2) as [out [f'| |]];
      [|done..].
    replace (i + 1 + Z.of_nat n) with (i + Z.of_nat (S n)) by lia.
    by destruct (schedule_loop fuel size diag ds m _ f').
Qed.

(** ** The greedy rule determines the schedule *)

Lemma latest_free_det size taken d a a' :
  latest_free size taken d a → latest_free size taken d a' → a = a'.
Proof.
  intros (Ha & Hfree & Hcase) (Ha' & Hfree' & Hcase').
  destruct (Z.lt_trichotomy a a') as [Hlt|[Heq|Hgt]]; [exfalso|done|exfalso].
  - destruct Hcase as [[Hle Hbt]|[Hlow Hbt]].
    + destruct Hcase' as [[Hle' Hbt']|[Hlow' Hbt']].
      * apply Hfree', Hbt. lia.
      * apply Hfree, Hlow'. lia.
    + apply Hfree', Hbt. lia.
  - destruct Hcase' as [[Hle' Hbt']|[Hlow' Hbt']].
    + destruct Hcase as [[Hle Hbt]|[Hlow Hbt]].
      * apply Hfree, Hbt'. lia.
      * apply Hfree', Hlow. lia.
    + apply Hfree, Hbt'. lia.
Qed.

Lemma greedy_det size ds out : ∀ taken i out',
  greedy size ds taken i out → greedy size ds taken i out' →
  length out = length out' → out = out'.
Proof.
  induction out as [|[k a] out IH]; intros taken i [|[k' a'] out'] H H' Hlen;
    try done; try (simpl in Hlen; lia).
  simpl in *. destruct H as (-> & (d & Hd & Hl) & H).
  destruct H' as (-> & (d' & Hd' & Hl') & H').
  assert (d' = d) by congruence. subst d'.
  assert (a' = a) by by eapply latest_free_det. subst a'.
  f_equal. eapply IH; [done..|lia].
Qed.

Lemma greedy_slots size ds out : ∀ taken i,
  greedy size ds taken i out →
  out.*1 = seqZ i (Z.of_nat (length out)) ∧
  NoDup (out.*2) ∧
  ∀ a, a ∈ out.*2 → 0 ≤ a < size ∧ a ∉ taken.
Proof.
  induction out as [|[k a] out IH]; intros taken i H.
  - split_and!; [done|constructor|]. by intros a ?%elem_of_nil.
  - simpl in H. destruct H as (-> & (d & Hd & Ha & Hfree & _) & H).
    destruct (IH _ _ H) as (Htasks & Hnd & Hall).
    split_and!.
    + rewrite fmap_cons. simpl length. rewrite seqZ_cons by lia.
      rewrite Htasks. f_equal. f_equal; lia.
    + rewrite fmap_cons. apply list.NoDup_cons. split; [|done].
      intros Hin. apply Hall in Hin as [_ Hin]. apply Hin. by left.
    + intros x [->|Hx]%elem_of_cons; [done|].
      destruct (Hall _ Hx) as [? Hnot]. split; [done|].
      intros Hin. apply Hnot. by right.
Qed.

(** ** The whole run *)

Lemma valid_deadlines_in_range size ds (n : nat) :
  valid_deadlines size ds → Z.of_nat n ≤ size →
  deadlines_in_range size ds 0 n.
Proof.
  intros [Hlen Hall] Hn k Hk.
  destruct (get_in_range ds k) as [d Hd]; [lia|].
  exists d. split; [done|].
  unfold get in Hd. destruct (k <? 0); [done|].
  by eapply (Forall_lookup_1 _ _ _ _ Hall).
Qed.

Lemma run_tasks_spec fuel diag junk size ds (n : nat) :
  1 ≤ size < 2 ^ 32 → (Z.to_nat size ≤ fuel)%nat →
  Z.of_nat n ≤ size → deadlines_in_range size ds 0 n →
  ∃ out f,
    run_tasks fuel diag junk size ds n = (out, Ret f) ∧
    length out = n ∧
    greedy size ds [] 0 out ∧
    wf_forest size f ∧
    (Z.of_nat n < size → Inv size (reverse out.*2) f).
Proof.
  intros Hsize Hfuel Hn Hds.
  destruct (make_loop_alloc junk size) as (f0 & Hinit & Hsingle); [lia|].
  destruct (schedule_loop_spec fuel size diag ds n 0 [] f0)
    as (out & f & Hrun & Hlen & Hgreedy & Hwf & HInv);
    [by apply singletons_Inv|done..|lia|done|].
  exists out, f. split_and!; [|done..|].
  - unfold run_tasks. by rewrite Hinit.
  - intros Hlt. rewrite <- (app_nil_r (reverse _)). apply HInv. lia.
Qed.

Lemma run_spec fuel diag junk size ds :
  1 ≤ size < 2 ^ 32 → (Z.to_nat size ≤ fuel)%nat →
  valid_deadlines size ds →
  ∃ out f,
    run fuel diag junk size ds = (out, Ret f) ∧
    Z.of_nat (length out) = size ∧
    greedy size ds [] 0 out ∧
    wf_forest size f.
Proof.
  intros Hsize Hfuel Hds.
  destruct (run_tasks_spec fuel diag junk size ds (Z.to_nat size))
    as (out & f & Hrun & Hlen & Hgreedy & Hwf & _); [done..|lia| |].
  { apply valid_deadlines_in_range; [done|lia]. }
  exists out, f. split_and!; [done|lia|done..].
Qed.

(** The [k]-th assignment of a greedy list, against the slots of the
    [k] assignments before it. *)
Lemma latest_free_ext size taken taken' d a :
  (∀ x, x ∈ taken ↔ x ∈ taken') →
  latest_free size taken d a → latest_free size taken' d a.
Proof.
  intros Heq (Ha & Hfree & Hcase). split_and!; [lia..|by rewrite <- Heq|].
  destruct Hcase as [[Hle Hbt]|[Hlow Hbt]]; [left|right].
  - split; [done|]. intros j Hj. by apply Heq, Hbt.
  - split; intros j Hj; apply Heq; [by apply Hlow|by apply Hbt].
Qed.

Lemma greedy_lookup size ds out : ∀ taken i (k : nat) t a,
  greedy size ds taken i out → out !! k = Some (t, a) →
  t = i + Z.of_nat k ∧
  ∃ d, get ds t = Some d ∧
       latest_free size ((take k out).*2 ++ taken) d a.
Proof.
  induction out as [|[t0 a0] out IH]; intros taken i k t a H Hk.
  - by rewrite lookup_nil in Hk.
  - simpl in H. destruct H as (-> & (d & Hd & Hl) & H).
    destruct k as [|k]; simpl in Hk.
    + injection Hk as <- <-. split; [lia|]. by exists d.
    + destruct (IH _ _ _ _ _ H Hk) as (-> & d' & Hd' & Hl').
      split; [lia|]. exists d'. split; [done|].
      eapply latest_free_ext; [|exact Hl'].
      intros x. rewrite firstn_cons, fmap_cons. simpl.
      rewrite !elem_of_app, !elem_of_cons, elem_of_app. tauto.
Qed.

Lemma run_tasks_app fuel diag junk size ds (n m : nat) :
  run_tasks fuel diag junk size ds (n + m) =
    match run_tasks fuel diag junk size ds n with
    | (out, Ret f) =>
        let '(out', res) := schedule_loop fuel size diag ds m (Z.of_nat n) f in
        (out ++ out', res)
    | (out, OutOfBounds) => (out, OutOfBounds)
    | (out, OutOfFuel) => (out, OutOfFuel)
    end.
Proof.
  unfold run_tasks.
  destruct (make_loop (Z.to_nat size) 0 (alloc junk size)) as [[[] f0]| |];
    [|done..].
  by rewrite schedule_loop_app.
Qed.

Lemma find_set_out_of_bounds fuel f d :
  ¬ (0 ≤ d < Z.of_nat (length f)) →
  find_set (S fuel) d f = OutOfBounds.
Proof.
  intros Hd. simpl. unfold bind.
  by rewrite load_parent_None by by apply get_None_range.
Qed.

Lemma root_of_reaches fuel f : ∀ i r,
  root_of fuel f i = Some r → reaches f i r.
Proof.
  induction fuel as [|fuel IH]; intros i r H; [done|].
  simpl in H. destruct (get f i) as [s|] eqn:Hs; [|done].
  destruct (Z.eqb_spec (parent s) i) as [Hp|Hp].
  - injection H as <-. exists []. by econstructor.
  - destruct (IH _ _ H) as [l Hl]. exists (i :: l). by econstructor.
Qed.

Lemma check_forest_wf f :
  check_forest f = true → wf_forest (Z.of_nat (length f)) f.
Proof.
  intros Hc. split; [done|]. intros i Hi.
  unfold check_forest in Hc. rewrite forallb_forall in Hc.
  specialize (Hc i). rewrite bool_decide_eq_true in Hc.
  destruct Hc as [r Hr].
  - apply list_elem_of_In, elem_of_seqZ. lia.
  - exists r. by eapply root_of_reaches.
Qed.

(** A compression that rewrites every cell with its own content changes
    nothing. *)
Lemma compressed_same f l r f' :
  compressed f l r f' →
  (∀ x s sr, x ∈ l → get f x = Some s → get f r = Some sr →
     parent s = r ∧ available_slot s = available_slot sr) →
  f' = f.
Proof.
  intros (Hlen & Hin & Hout) Hflat. apply get_ext. intros x.
  destruct (decide (x ∈ l)) as [Hx|Hx]; [|by apply Hout].
  destruct (Hin x Hx) as (s & sr & Hs & Hsr & ->).
  destruct (Hflat _ _ _ Hx Hs Hsr) as [Hp Ha].
  rewrite Hs. f_equal. unfold compressed_cell. destruct s; simpl in *.
  congruence.
Qed.

(** Paths only depend on the parent links. *)
Lemma path_parent_ext f f' l i r :
  (∀ x, parent <$> get f' x = parent <$> get f x) →
  path f l i r → path f' l i r.
Proof.
  intros Hext. induction 1 as [r s Hs Hp|i s l r Hs Hp Hl IH].
  - specialize (Hext r). rewrite Hs in Hext.
    destruct (get f' r) as [s'|] eqn:Hs'; [|done].
    injection Hext as Hext. econstructor; [done|congruence].
  - specialize (Hext i). rewrite Hs in Hext.
    destruct (get f' i) as [s'|] eqn:Hs'; [|done].
    injection Hext as Hext.
    econstructor; [done|congruence|by rewrite Hext].
Qed.

(** ** The claims *)

(** C1: for every [size >= 1] (an [unsigned int]) and every table of
    [size] deadlines that are all slots, the run of [main] ends normally;
    it prints exactly [size] assignments, one per task in input order; every
    assigned slot is in [0, size); no slot is given twice; hence the slots
    given are exactly the slots [0 .. size-1], each once, and tasks and
    slots are in bijection. *)
Theorem schedule_is_bijection fuel junk size ds :
  1 ≤ size < 2 ^ 32 → valid_deadlines size ds →
  (Z.to_nat size ≤ fuel)%nat →
  ∃ out f,
    scheduler fuel junk size ds = (out, Ret f) ∧
    Z.of_nat (length out) = size ∧
    out.*1 = seqZ 0 size ∧
    Forall (λ a, 0 ≤ a < size) out.*2 ∧
    NoDup out.*2 ∧
    out.*2 ≡ₚ seqZ 0 size.
Proof.
  intros Hsize Hds Hfuel.
  destruct (run_spec fuel main_diag junk size ds)
    as (out & f & Hrun & Hlen & Hgreedy & _); [done..|].
  destruct (greedy_slots _ _ _ _ _ Hgreedy) as (Htasks & Hnd & Hall).
  assert (Hrange : Forall (λ a, 0 ≤ a < size) out.*2).
  { apply list.Forall_forall. intros a Ha. by apply Hall. }
  exists out, f. split_and!; [done|done|by rewrite Htasks, Hlen|done..|].
  apply submseteq_length_Permutation.
  - apply NoDup_submseteq; [done|]. intros a Ha. apply elem_of_seqZ.
    apply Hall in Ha. lia.
  - rewrite length_seqZ, length_fmap. lia.
Qed.

Lemma schedule_is_bijection_witness :
  ∃ out f,
    scheduler 3 (SlotSet 0 0 0) 3 [1; 1; 1] = (out, Ret f) ∧
    Z.of_nat (length out) = 3 ∧
    out.*1 = seqZ 0 3 ∧
    Forall (λ a, 0 ≤ a < 3) out.*2 ∧
    NoDup out.*2 ∧
    out.*2 ≡ₚ seqZ 0 3.
Proof.
  apply schedule_is_bijection.
  - lia.
  - split; [reflexivity|]. repeat constructor; lia.
  - simpl. lia.
Defined.

(** C2: at every step of a run on deadlines that are slots, the slot given
    to the task is the latest slot at or before its deadline that no earlier
    task was given; when every slot up to the deadline was given to an
    earlier task, it is the latest slot of all that no earlier task was
    given (the wrap-around past slot 0). *)
Theorem schedule_latest_free fuel junk size ds :
  1 ≤ size < 2 ^ 32 → valid_deadlines size ds →
  (Z.to_nat size ≤ fuel)%nat →
  ∃ out f,
    scheduler fuel junk size ds = (out, Ret f) ∧
    Z.of_nat (length out) = size ∧
    ∀ (k : nat) t a, out !! k = Some (t, a) →
      t = Z.of_nat k ∧
      ∃ d, get ds t = Some d ∧ latest_free size (take k out).*2 d a.
Proof.
  intros Hsize Hds Hfuel.
  destruct (run_spec fuel main_diag junk size ds)
    as (out & f & Hrun & Hlen & Hgreedy & _); [done..|].
  exists out, f. split_and!; [done..|]. intros k t a Hk.
  destruct (greedy_lookup _ _ _ _ _ _ _ _ Hgreedy Hk) as (-> & d & Hd & Hl).
  split; [lia|]. exists d. split; [done|]. by rewrite app_nil_r in Hl.
Qed.

Lemma schedule_latest_free_witness :
  ∃ out f,
    scheduler 3 (SlotSet 0 0 0) 3 [1; 1; 1] = (out, Ret f) ∧
    Z.of_nat (length out) = 3 ∧
    ∀ (k : nat) t a, out !! k = Some (t, a) →
      t = Z.of_nat k ∧
      ∃ d, get [1; 1; 1] t = Some d ∧ latest_free 3 (take k out).*2 d a.
Proof.
  apply schedule_latest_free.
  - lia.
  - split; [reflexivity|]. repeat constructor; lia.
  - simpl. lia.
Defined.

(** C3: [merge(slot, a, b)] on two distinct roots.  When
    [rank a > rank b], the parent of [b] becomes [a] and the
    [available_slot] of [a] is overwritten with that of [b]; otherwise the
    parent of [a] becomes [b], and the rank of [b] goes up by one (as an
    [unsigned int]: [rank b + 1] below [UINT_MAX]) exactly when the ranks
    were equal.  The two cells are given field by field; no other field
    and no other cell changes.  Either way the root that survives offers
    the slot that [b] offered before the call. *)
Theorem merge_second_argument_survives f a b sa sb :
  get f a = Some sa → parent sa = a →
  get f b = Some sb → parent sb = b → a ≠ b →
  ∃ f',
    merge a b f = Ret (tt, f') ∧
    (∀ x, x ≠ a → x ≠ b → get f' x = get f x) ∧
    (if rank sa >? rank sb
     then get f' b = Some (SlotSet (available_slot sb) a (rank sb)) ∧
          get f' a = Some (SlotSet (available_slot sb) a (rank sa))
     else get f' a = Some (SlotSet (available_slot sa) b (rank sa)) ∧
          get f' b = Some (SlotSet (available_slot sb) b
                             (if rank sa =? rank sb
                              then u32 (rank sb + 1)
                              else rank sb))) ∧
    (∃ sa' sb',
       get f' a = Some sa' ∧ get f' b = Some sb' ∧
       rank sa' = rank sa ∧
       (rank sa ≠ rank sb → rank sb' = rank sb) ∧
       (rank sa = rank sb → 0 ≤ rank sb < 2 ^ 32 - 1 →
        rank sb' = rank sb + 1)) ∧
    ∃ t st,
      t = (if rank sa >? rank sb then a else b) ∧
      get f' t = Some st ∧ parent st = t ∧
      available_slot st = available_slot sb ∧
      ∀ x, x = a ∨ x = b → reaches f' x t.
Proof.
  intros Ha Hpa Hb Hpb Hne.
  destruct (merge_cells _ _ _ _ _ Ha Hb Hne) as (f' & Hm & Hlen & Hoth & Hcells).
  assert (Hfields :
    if rank sa >? rank sb
    then get f' b = Some (SlotSet (available_slot sb) a (rank sb)) ∧
         get f' a = Some (SlotSet (available_slot sb) a (rank sa))
    else get f' a = Some (SlotSet (available_slot sa) b (rank sa)) ∧
         get f' b = Some (SlotSet (available_slot sb) b
                            (if rank sa =? rank sb
                             then u32 (rank sb + 1)
                             else rank sb))).
  { destruct (rank sa >? rank sb); destruct Hcells as [H1 H2].
    - rewrite H1, H2. unfold set_parent, set_available_slot.
      by rewrite Hpa.
    - rewrite H1, H2. unfold set_parent. split; [done|].
      destruct (Z.eqb_spec (rank sa) (rank sb)) as [->|_].
      + unfold set_rank. by rewrite Hpb.
      + destruct sb; simpl in *. by rewrite Hpb. }
  exists f'. split_and!; [done..| |].
  - destruct (Z.gtb_spec (rank sa) (rank sb)) as [Hgt|Hle];
      destruct Hfields as [H1 H2].
    + eexists _, _. split_and!; [exact H2|exact H1|done|done|].
      intros Heq. lia.
    + eexists _, _. split_and!; [exact H1|exact H2|done|..]; simpl.
      * intros Hr. by destruct (Z.eqb_spec (rank sa) (rank sb)).
      * intros Heq Hr. destruct (Z.eqb_spec (rank sa) (rank sb)); [|done].
        apply u32_small. lia.
  - destruct (rank sa >? rank sb); destruct Hfields as [H1 H2].
    + assert (Hroot : path f' [] a a) by by econstructor.
      eexists a, _. split_and!; [done|exact H2|done..|].
      intros x [->| ->]; [by exists []|].
      exists [b]. eapply path_step; [exact H1|simpl; congruence|done].
    + assert (Hroot : path f' [] b b) by by econstructor.
      eexists b, _. split_and!; [done|exact H2|done..|].
      intros x [->| ->]; [|by exists []].
      exists [a]. eapply path_step; [exact H1|simpl; congruence|done].
Qed.

Lemma merge_second_argument_survives_witness :
  ∃ f',
    merge 1 0 [SlotSet 0 0 0; SlotSet 1 1 0] = Ret (tt, f') ∧
    (∀ x, x ≠ 1 → x ≠ 0 → get f' x = get [SlotSet 0 0 0; SlotSet 1 1 0] x) ∧
    (if 0 >? 0
     then get f' 0 = Some (SlotSet 0 1 0) ∧
          get f' 1 = Some (SlotSet 0 1 0)
     else get f' 1 = Some (SlotSet 1 0 0) ∧
          get f' 0 = Some (SlotSet 0 0 (if 0 =? 0 then u32 (0 + 1) else 0))) ∧
    (∃ sa' sb',
       get f' 1 = Some sa' ∧ get f' 0 = Some sb' ∧
       rank sa' = 0 ∧
       (0 ≠ 0 → rank sb' = 0) ∧
       (0 = 0 → 0 ≤ 0 < 2 ^ 32 - 1 → rank sb' = 0 + 1)) ∧
    ∃ t st,
      t = (if 0 >? 0 then 1 else 0) ∧
      get f' t = Some st ∧ parent st = t ∧
      available_slot st = 0 ∧
      ∀ x, x = 1 ∨ x = 0 → reaches f' x t.
Proof.
  apply (merge_second_argument_survives
           [SlotSet 0 0 0; SlotSet 1 1 0] 1 0 (SlotSet 1 1 0) (SlotSet 0 0 0));
    first [reflexivity|lia].
Defined.

(** C4: in a run on deadlines that are slots, before each task [k] is
    processed (after the [k] tasks before it, [out] being their
    assignments), for every slot [s] the call [find_set(slot, s)] returns a
    cell whose [available_slot] is a slot index in [0 .. size-1] that none
    of the tasks processed so far was given. *)
Theorem available_slot_unassigned fuel junk size ds (k : nat) :
  1 ≤ size < 2 ^ 32 → valid_deadlines size ds →
  (Z.to_nat size ≤ fuel)%nat → Z.of_nat k < size →
  ∃ out f,
    run_tasks fuel main_diag junk size ds k = (out, Ret f) ∧
    out = take k (scheduler fuel junk size ds).1 ∧
    ∀ s, 0 ≤ s < size →
      ∃ r f' sr,
        find_set fuel s f = Ret (r, f') ∧ get f' r = Some sr ∧
        0 ≤ available_slot sr < size ∧
        available_slot sr ∉ out.*2.
Proof.
  intros Hsize Hds Hfuel Hk.
  destruct (run_tasks_spec fuel main_diag junk size ds k)
    as (out & f & Hrun & Hlen & Hgreedy & Hwf & HInv); [done..|lia| |].
  { apply valid_deadlines_in_range; [done|lia]. }
  exists out, f. split_and!; [done| |].
  - unfold scheduler, run.
    replace (Z.to_nat size) with (k + (Z.to_nat size - k))%nat by lia.
    rewrite run_tasks_app, Hrun.
    destruct (schedule_loop _ _ _ _ _ _ f) as [out' res]. simpl.
    by rewrite take_app_length' by done.
  - intros s Hs. destruct (HInv Hk) as [Hlenf Hall].
    destruct (Hall s Hs) as (r & sr & Hr & Hsr & Ha & Hfree & _).
    destruct (find_set_reaches f s r fuel) as (f' & Hfind & Hsame); [done|lia|].
    exists r, f', sr. split_and!; [done| |lia|lia|].
    + destruct Hsame as (_ & _ & Hkeep). rewrite Hkeep; [done|].
      destruct Hr as [l Hr]. by eapply path_end_root.
    + intros Hin. apply Hfree. by apply elem_of_reverse.
Qed.

Lemma available_slot_unassigned_witness :
  ∃ out f,
    run_tasks 3 main_diag (SlotSet 0 0 0) 3 [1; 1; 1] 2 = (out, Ret f) ∧
    out = take 2 (scheduler 3 (SlotSet 0 0 0) 3 [1; 1; 1]).1 ∧
    ∀ s, 0 ≤ s < 3 →
      ∃ r f' sr,
        find_set 3 s f = Ret (r, f') ∧ get f' r = Some sr ∧
        0 ≤ available_slot sr < 3 ∧
        available_slot sr ∉ out.*2.
Proof.
  apply available_slot_unassigned.
  - lia.
  - split; [reflexivity|]. repeat constructor; lia.
  - simpl. lia.
  - lia.
Defined.

(** C5: on an array whose parent links form a forest, for every slot [s],
    [find_set(slot, s)] returns the root [r] of the tree of [s]; afterwards
    every node [x] that was on the path from [s] to the root, the root
    excluded (the list [l]), has [r] as its parent and the
    [available_slot] of [r] as its [available_slot]; the root and the cells
    off the path are unchanged. *)
Theorem find_set_compresses size f s fuel :
  wf_forest size f → 0 ≤ s < size → (Z.to_nat size ≤ fuel)%nat →
  ∃ r l sr f',
    find_set fuel s f = Ret (r, f') ∧
    path f l s r ∧
    get f r = Some sr ∧ get f' r = Some sr ∧
    (∀ x, x ∈ l →
       ∃ sx', get f' x = Some sx' ∧ parent sx' = r ∧
              available_slot sx' = available_slot sr) ∧
    (∀ x, x ∉ l → get f' x = get f x).
Proof.
  intros [Hlen Hall] Hs Hfuel.
  destruct (Hall s Hs) as (r & l & Hl).
  destruct (find_set_path _ _ _ _ Hl fuel) as (f' & Hfind & _ & Hin & Hout).
  { apply path_length in Hl. lia. }
  destruct (path_end_root _ _ _ _ Hl) as (sr & Hsr & Hpr).
  exists r, l, sr, f'. split_and!; [done..| | |done].
  - rewrite Hout; [done|]. by eapply path_root_not_in.
  - intros x Hx. destruct (Hin x Hx) as (sx & sr' & Hsx & Hsr' & Hc).
    assert (sr' = sr) by congruence. subst sr'.
    by eexists.
Qed.

Lemma find_set_compresses_witness :
  ∃ r l sr f',
    find_set 3 2 [SlotSet 0 0 1; SlotSet 1 0 0; SlotSet 2 1 0] = Ret (r, f') ∧
    path [SlotSet 0 0 1; SlotSet 1 0 0; SlotSet 2 1 0] l 2 r ∧
    get [SlotSet 0 0 1; SlotSet 1 0 0; SlotSet 2 1 0] r = Some sr ∧
    get f' r = Some sr ∧
    (∀ x, x ∈ l →
       ∃ sx', get f' x = Some sx' ∧ parent sx' = r ∧
              available_slot sx' = available_slot sr) ∧
    (∀ x, x ∉ l →
       get f' x = get [SlotSet 0 0 1; SlotSet 1 0 0; SlotSet 2 1 0] x).
Proof.
  apply (find_set_compresses 3).
  - apply (check_forest_wf [SlotSet 0 0 1; SlotSet 1 0 0; SlotSet 2 1 0]).
    reflexivity.
  - lia.
  - simpl. lia.
Defined.

(** C6: on the default table of [main] (size 10, 0-based deadlines
    0 6 1 9 2 5 3 3 6 0) the run is determined by the input alone, whatever
    the recursion budget and the content of the fresh array: tasks 1 to 10
    (here numbered from 0) are given the 0-based slots
    0 6 1 9 2 5 3 8 4 7; in particular task 1 gets slot 0, task 2 slot 6
    and task 3 slot 1. *)
Theorem default_schedule fuel junk :
  (Z.to_nat default_size ≤ fuel)%nat →
  ∃ f,
    scheduler fuel junk default_size default_deadlines =
      ([(0, 0); (1, 6); (2, 1); (3, 9); (4, 2);
        (5, 5); (6, 3); (7, 8); (8, 4); (9, 7)], Ret f).
Proof.
  intros Hfuel.
  assert (Hds : valid_deadlines default_size default_deadlines).
  { split; [reflexivity|]. unfold default_size. repeat constructor; lia. }
  assert (Hsize : 1 ≤ default_size < 2 ^ 32) by (unfold default_size; lia).
  destruct (run_spec fuel main_diag junk default_size default_deadlines)
    as (out & f & Hrun & Hlen & Hgreedy & _); [done..|].
  destruct (run_spec 10 main_diag junk default_size default_deadlines)
    as (out' & f' & Hrun' & Hlen' & Hgreedy' & _);
    [done|unfold default_size; lia|done|].
  assert (Hout' : out' = [(0, 0); (1, 6); (2, 1); (3, 9); (4, 2);
                          (5, 5); (6, 3); (7, 8); (8, 4); (9, 7)]).
  { revert Hrun'. vm_compute. by intros [= <- _]. }
  exists f. unfold scheduler. rewrite Hrun. f_equal. rewrite <- Hout'.
  eapply greedy_det; [done..|lia].
Qed.

Lemma default_schedule_witness :
  ∃ f,
    scheduler 10 (SlotSet 0 0 0) default_size default_deadlines =
      ([(0, 0); (1, 6); (2, 1); (3, 9); (4, 2);
        (5, 5); (6, 3); (7, 8); (8, 4); (9, 7)], Ret f).
Proof.
  apply default_schedule. unfold default_size. lia.
Defined.

(** C7, as the code has it: the loop does not check the deadlines, and
    nothing is rejected.  When the deadline [d] of task [k] is the first
    that is not a slot, the [k] tasks before it are given their slots by
    the greedy rule and printed, the array of [size] cells being in the
    state [f]; the call [find_set(slot, d)] for task [k] then reads
    [slot[d]], which is not a cell of the array.  That access is undefined
    behaviour in C, and nothing is stated about what the program does
    from there. *)
Theorem out_of_range_deadline fuel junk size ds (k : nat) d :
  1 ≤ size < 2 ^ 32 → (Z.to_nat size ≤ fuel)%nat →
  Z.of_nat k < size → deadlines_in_range size ds 0 k →
  get ds (Z.of_nat k) = Some d → ¬ (0 ≤ d < size) →
  ∃ out f,
    run_tasks fuel main_diag junk size ds k = (out, Ret f) ∧
    length out = k ∧
    greedy size ds [] 0 out ∧
    Z.of_nat (length f) = size ∧
    get f d = None ∧
    slot_to_schedule fuel d f = OutOfBounds.
Proof.
  intros Hsize Hfuel Hk Hds Hd Hbad.
  destruct (run_tasks_spec fuel main_diag junk size ds k)
    as (out & f & Hrun & Hlen & Hgreedy & [Hlenf _] & _); [done..|lia|done|].
  exists out, f. split_and!; [done..| |].
  - apply get_None_range. lia.
  - destruct fuel as [|fuel]; [lia|].
    unfold slot_to_schedule, bind.
    by rewrite find_set_out_of_bounds by lia.
Qed.

Lemma out_of_range_deadline_witness :
  ∃ out f,
    run_tasks 2 main_diag (SlotSet 0 0 0) 2 [0; 5] 1 = (out, Ret f) ∧
    length out = 1%nat ∧
    greedy 2 [0; 5] [] 0 out ∧
    Z.of_nat (length f) = 2 ∧
    get f 5 = None ∧
    slot_to_schedule 2 5 f = OutOfBounds.
Proof.
  apply (out_of_range_deadline 2 (SlotSet 0 0 0) 2 [0; 5] 1 5).
  - lia.
  - simpl. lia.
  - lia.
  - intros j Hj. assert (j = 0) as -> by lia. exists 0. split; [reflexivity|lia].
  - reflexivity.
  - lia.
Defined.

(** C7 as stated fails: with [size = 2] and the deadlines 0 and 5, the
    second of which is not a slot, the run is not rejected beforehand:
    the first iteration of the loop enters the forest and gives task 1
    slot 0, and unites it with slot 1, before the deadline 5 is looked
    at. *)
Lemma out_of_range_not_rejected :
  ¬ (0 ≤ 5 < 2) ∧
  run_tasks 2 main_diag (SlotSet 0 0 0) 2 [0; 5] 1 =
    ([(0, 0)], Ret [SlotSet 1 1 0; SlotSet 1 1 1]).
Proof. split; [lia|reflexivity]. Qed.

(** C8, as the code has it: between any two scheduling steps (after [k]
    tasks, whatever diagnostics were displayed so far), displaying the
    table only compresses paths: the sets and the cells of the roots,
    hence the slot offered to every slot [s], are unchanged, and every
    other cell is either unchanged or re-parented to its root with its
    stored [available_slot] overwritten by that of the root.  The
    assignments produced afterwards are the same with and without the
    display, and the whole schedule does not depend on how often the table
    is displayed. *)
Theorem display_transparent fuel junk size ds diag diag' (k : nat) :
  1 ≤ size < 2 ^ 32 → valid_deadlines size ds →
  (Z.to_nat size ≤ fuel)%nat → Z.of_nat k ≤ size →
  ∃ out f row f',
    run_tasks fuel diag junk size ds k = (out, Ret f) ∧
    display_all_sets fuel size f = Ret (row, f') ∧
    compression f f' ∧
    (∀ s a, resolves f' s a ↔ resolves f s a) ∧
    (schedule_loop fuel size diag' ds (Z.to_nat size - k) (Z.of_nat k) f').1 =
      (schedule_loop fuel size diag' ds (Z.to_nat size - k) (Z.of_nat k) f).1 ∧
    (run fuel diag' junk size ds).1 = (run fuel diag junk size ds).1.
Proof.
  intros Hsize Hds Hfuel Hk.
  destruct (run_tasks_spec fuel diag junk size ds k)
    as (out & f & Hrun & Hlen & Hgreedy & Hwf & HInv); [done..| |].
  { apply valid_deadlines_in_range; [done|lia]. }
  destruct (display_all_sets_spec fuel size f)
    as (row & f' & Hdisp & Hcomp & _); [done|destruct Hwf; lia|].
  destruct (Hcomp) as [Hsame _].
  exists out, f, row, f'. split_and!; [done..| | |].
  - intros s a. symmetry. by apply resolves_same_sets.
  - destruct (decide (Z.of_nat k < size)) as [Hlt|Hge].
    + assert (Hrest : deadlines_in_range size ds (Z.of_nat k) (Z.to_nat size - k)).
      { intros j Hj.
        apply (valid_deadlines_in_range size ds (Z.to_nat size)); [done|lia..]. }
      assert (Hlenk : Z.of_nat k = Z.of_nat (length (reverse out.*2 ++ [])))
        by (rewrite app_nil_r, length_reverse, length_fmap; lia).
      destruct (schedule_loop_spec fuel size diag' ds (Z.to_nat size - k)
                  (Z.of_nat k) (reverse out.*2 ++ []) f)
        as (o1 & g1 & -> & Hl1 & Hg1 & _);
        [rewrite app_nil_r; by apply HInv|done..|lia|done|].
      destruct (schedule_loop_spec fuel size diag' ds (Z.to_nat size - k)
                  (Z.of_nat k) (reverse out.*2 ++ []) f')
        as (o2 & g2 & -> & Hl2 & Hg2 & _);
        [rewrite app_nil_r; eapply Inv_same_sets; [by apply HInv|done]
        |done..|lia|done|].
      simpl. eapply greedy_det; [done..|lia].
    + by replace (Z.to_nat size - k)%nat with 0%nat by lia.
  - destruct (run_spec fuel diag junk size ds)
      as (o1 & g1 & -> & Hl1 & Hg1 & _); [done..|].
    destruct (run_spec fuel diag' junk size ds)
      as (o2 & g2 & -> & Hl2 & Hg2 & _); [done..|].
    simpl. eapply greedy_det; [done..|lia].
Qed.

Lemma display_transparent_witness :
  ∃ out f row f',
    run_tasks 3 (λ _, 0%nat) (SlotSet 0 0 0) 3 [1; 1; 1] 1 = (out, Ret f) ∧
    display_all_sets 3 3 f = Ret (row, f') ∧
    compression f f' ∧
    (∀ s a, resolves f' s a ↔ resolves f s a) ∧
    (schedule_loop 3 3 main_diag [1; 1; 1] (Z.to_nat 3 - 1) (Z.of_nat 1) f').1 =
      (schedule_loop 3 3 main_diag [1; 1; 1] (Z.to_nat 3 - 1) (Z.of_nat 1) f).1 ∧
    (run 3 main_diag (SlotSet 0 0 0) 3 [1; 1; 1]).1 =
      (run 3 (λ _, 0%nat) (SlotSet 0 0 0) 3 [1; 1; 1]).1.
Proof.
  apply display_transparent.
  - lia.
  - split; [reflexivity|]. repeat constructor; lia.
  - simpl. lia.
  - lia.
Defined.

(** C8 as stated fails: after task 1 of the deadlines 1 1 1 was given slot
    1 and united with slot 0, cell 1 stores the [available_slot] 1; the
    display overwrites it with 0, the slot its root offers. *)
Lemma display_overwrites_available_slot :
  ∃ f row f',
    run_tasks 3 (λ _, 0%nat) (SlotSet 0 0 0) 3 [1; 1; 1] 1 = ([(0, 1)], Ret f) ∧
    display_all_sets 3 3 f = Ret (row, f') ∧
    available_slot <$> get f 1 = Some 1 ∧
    available_slot <$> get f' 1 = Some 0.
Proof. eexists _, _, _. split_and!; reflexivity. Qed.

(** C9: on an array whose parent links form a forest, for every slot [s],
    two calls of [find_set(slot, s)] in a row return the same
    representative, and the second leaves the whole array (every [parent],
    [available_slot] and [rank]) as the first left it. *)
Theorem find_set_idempotent size f s fuel :
  wf_forest size f → 0 ≤ s < size → (Z.to_nat size ≤ fuel)%nat →
  ∃ r f',
    find_set fuel s f = Ret (r, f') ∧
    find_set fuel s f' = Ret (r, f').
Proof.
  intros [Hlen Hall] Hs Hfuel.
  destruct (Hall s Hs) as (r & l & Hl).
  destruct (find_set_path _ _ _ _ Hl fuel) as (f' & Hfind & Hc).
  { apply path_length in Hl. lia. }
  exists r, f'. split; [done|].
  destruct (Hc) as (Hlen' & Hin & Hout).
  destruct (path_end_root _ _ _ _ Hl) as (sr & Hsr & Hpr).
  assert (Hsr' : get f' r = Some sr).
  { rewrite Hout; [done|]. by eapply path_root_not_in. }
  assert (Hroot' : path f' [] r r) by by econstructor.
  assert (∃ l', path f' l' s r ∧ ∀ x, x ∈ l' → x = s ∧ s ∈ l) as (l' & Hl' & Hl's).
  { destruct Hl as [r s0 Hs0 Hp0|i s0 l r Hs0 Hp0 Hl].
    - exists []. split; [done|]. by intros x ?%elem_of_nil.
    - exists [i]. split.
      + destruct (Hin i) as (s1 & sr1 & Hs1 & Hsr1 & Hc1); [by left|].
        eapply path_step; [exact Hc1| |done].
        simpl. intros <-. congruence.
      + intros x [->|[]%elem_of_nil]%elem_of_cons. split; [done|by left]. }
  destruct (find_set_path _ _ _ _ Hl' fuel) as (f'' & Hfind' & Hc').
  { apply path_length in Hl'. lia. }
  rewrite Hfind'. do 2 f_equal.
  eapply compressed_same; [exact Hc'|].
  intros x sx sr' Hx Hsx Hsrx.
  destruct (Hl's x Hx) as [-> Hsl].
  destruct (Hin s Hsl) as (s1 & sr1 & Hs1 & Hsr1 & Hc1).
  assert (sr1 = sr) by congruence. assert (sr' = sr) by congruence.
  subst sr1 sr'. rewrite Hc1 in Hsx. by injection Hsx as <-.
Qed.

Lemma find_set_idempotent_witness :
  ∃ r f',
    find_set 3 2 [SlotSet 0 0 1; SlotSet 1 0 0; SlotSet 2 1 0] = Ret (r, f') ∧
    find_set 3 2 f' = Ret (r, f').
Proof.
  apply (find_set_idempotent 3).
  - apply (check_forest_wf [SlotSet 0 0 1; SlotSet 1 0 0; SlotSet 2 1 0]).
    reflexivity.
  - lia.
  - simpl. lia.
Defined.

(** C10: when [a] and [b] already belong to the same set, of root [r],
    [unite(slot, a, b)] keeps the partition into sets and the
    [available_slot] of every root, and adds one (as an [unsigned int]:
    [rank + 1] below [UINT_MAX]) to the rank of [r], whose other two
    fields stay: [merge] is called with both arguments equal to [r] and
    takes its else branch.  The other roots are unchanged. *)
Theorem unite_same_set fuel f a b r sr :
  reaches f a r → reaches f b r → get f r = Some sr →
  (length f ≤ fuel)%nat →
  ∃ f1 f',
    unite fuel a b f = Ret (tt, f') ∧
    compression f f1 ∧
    merge r r f1 = Ret (tt, f') ∧
    (∀ i x, reaches f' i x ↔ reaches f i x) ∧
    get f' r = Some (SlotSet (available_slot sr) r (u32 (rank sr + 1))) ∧
    (∃ sr', get f' r = Some sr' ∧
            rank sr' = u32 (rank sr + 1) ∧
            (0 ≤ rank sr < 2 ^ 32 - 1 → rank sr' = rank sr + 1)) ∧
    (∀ x, root f x → x ≠ r → get f' x = get f x) ∧
    (∀ x sx, root f x → get f x = Some sx →
       ∃ sx', get f' x = Some sx' ∧ parent sx' = x ∧
              available_slot sx' = available_slot sx).
Proof.
  intros Ha Hb Hsr Hfuel.
  destruct (find_set_compression _ _ _ _ Ha Hfuel) as (fa & Hfa & Hca).
  assert (Hb' : reaches fa b r)
    by (destruct Hca as [(_ & Hreach & _) _]; by apply Hreach).
  destruct (find_set_compression fa b r fuel Hb') as (f1 & Hfb & Hcb).
  { destruct Hca as [(-> & _) _]. done. }
  pose proof (compression_trans _ _ _ Hca Hcb) as Hc.
  destruct (Hc) as [(Hlen & Hreach & Hkeep) _].
  assert (Hroot : root f r) by (destruct Ha as [l Hl]; by eapply path_end_root).
  assert (Hpr : parent sr = r) by (destruct Hroot as (? & ? & ?); congruence).
  assert (Hsr1 : get f1 r = Some sr) by by rewrite Hkeep.
  pose proof (merge_same_cell _ _ _ Hsr1) as Hm.
  set (f' := put f1 r (set_rank (u32 (rank sr + 1)) (set_parent r sr))) in *.
  assert (Hcell : set_rank (u32 (rank sr + 1)) (set_parent r sr)
                  = set_rank (u32 (rank sr + 1)) sr)
    by (unfold set_rank, set_parent; simpl; by rewrite Hpr).
  assert (Hr' : get f' r = Some (set_rank (u32 (rank sr + 1)) sr))
    by (unfold f'; rewrite <- Hcell; by eapply get_put_eq).
  assert (Hoth : ∀ x, x ≠ r → get f' x = get f1 x).
  { intros x Hx. unfold f'. apply get_put_ne; [|done].
    apply get_Some_range in Hsr. lia. }
  assert (Hext : ∀ x, parent <$> get f' x = parent <$> get f1 x).
  { intros x. destruct (decide (x = r)) as [->|Hx]; [|by rewrite Hoth].
    by rewrite Hr', Hsr1. }
  exists f1, f'. split_and!; [|done..| | | | |].
  - unfold unite. run_with Hfa. by run_with Hfb.
  - intros i x. rewrite Hreach. split; intros [l Hl]; exists l.
    + eapply path_parent_ext; [|exact Hl]. intros y. by rewrite Hext.
    + by eapply path_parent_ext.
  - rewrite Hr'. unfold set_rank. by rewrite Hpr.
  - eexists. split_and!; [exact Hr'|done|].
    intros Hr. simpl. apply u32_small. lia.
  - intros x Hx Hne. rewrite Hoth by done. by apply Hkeep.
  - intros x sx Hx Hsx. destruct (decide (x = r)) as [->|Hne].
    + eexists. split; [exact Hr'|]. assert (sx = sr) as -> by congruence. done.
    + exists sx. destruct Hx as (sx0 & Hsx0 & Hpx).
      assert (sx0 = sx) as -> by congruence.
      split_and!; [|done..]. rewrite Hoth by done. rewrite Hkeep; [done|].
      by exists sx.
Qed.

Lemma unite_same_set_witness :
  ∃ f1 f',
    unite 3 2 1 [SlotSet 0 0 1; SlotSet 1 0 0; SlotSet 2 1 0] = Ret (tt, f') ∧
    compression [SlotSet 0 0 1; SlotSet 1 0 0; SlotSet 2 1 0] f1 ∧
    merge 0 0 f1 = Ret (tt, f') ∧
    (∀ i x, reaches f' i x ↔
            reaches [SlotSet 0 0 1; SlotSet 1 0 0; SlotSet 2 1 0] i x) ∧
    get f' 0 = Some (SlotSet 0 0 (u32 (1 + 1))) ∧
    (∃ sr', get f' 0 = Some sr' ∧
            rank sr' = u32 (1 + 1) ∧
            (0 ≤ 1 < 2 ^ 32 - 1 → rank sr' = 1 + 1)) ∧
    (∀ x, root [SlotSet 0 0 1; SlotSet 1 0 0; SlotSet 2 1 0] x → x ≠ 0 →
          get f' x = get [SlotSet 0 0 1; SlotSet 1 0 0; SlotSet 2 1 0] x) ∧
    (∀ x sx, root [SlotSet 0 0 1; SlotSet 1 0 0; SlotSet 2 1 0] x →
       get [SlotSet 0 0 1; SlotSet 1 0 0; SlotSet 2 1 0] x = Some sx →
       ∃ sx', get f' x = Some sx' ∧ parent sx' = x ∧
              available_slot sx' = available_slot sx).
Proof.
  apply (unite_same_set 3 [SlotSet 0 0 1; SlotSet 1 0 0; SlotSet 2 1 0]
           2 1 0 (SlotSet 0 0 1)).
  - apply (root_of_reaches 3). reflexivity.
  - apply (root_of_reaches 3). reflexivity.
  - reflexivity.
  - simpl. lia.
Defined.

(** ** Further properties of the code *)

(** *** What [find_set] returns, on any array *)

Lemma find_set_returns_path fuel : ∀ i f r f',
  find_set fuel i f = Ret (r, f') →
  ∃ l r0, path f l i r0 ∧ (length l < fuel)%nat.
Proof.
  induction fuel as [|fuel IH]; intros i f r f' H; [done|].
  simpl in H. unfold bind at 1 in H.
  destruct (get f i) as [s|] eqn:Hs;
    [|by rewrite load_parent_None in H].
  rewrite (load_parent_Ret _ _ _ Hs) in H.
  destruct (Z.eqb_spec i (parent s)) as [Heq|Hne]; simpl in H.
  - exists [], i. split; [by econstructor|simpl; lia].
  - unfold bind at 1 2 in H.
    destruct (find_set fuel (parent s) f) as [[r1 f1]| |] eqn:Hrec; [|done..].
    destruct (IH _ _ _ _ Hrec) as (l & r0 & Hl & Hlen).
    exists (i :: l), r0. split; [by econstructor|simpl; lia].
Qed.

Lemma compression_rank f f' x s s' :
  compression f f' → get f x = Some s → get f' x = Some s' →
  rank s' = rank s.
Proof.
  intros [_ Hcells] Hs Hs'.
  destruct (Hcells _ _ Hs) as [?|(r & sr & _ & _ & ?)]; [congruence|].
  assert (s' = compressed_cell sr r s) as -> by congruence. done.
Qed.

Lemma find_set_inv fuel i f r f' :
  find_set fuel i f = Ret (r, f') →
  ∃ l, path f l i r ∧ compressed f l r f' ∧ compression f f'.
Proof.
  intros H. destruct (find_set_returns_path _ _ _ _ _ H) as (l & r0 & Hl & Hlen).
  destruct (find_set_path _ _ _ _ Hl fuel Hlen) as (f'' & Hfind & Hc).
  rewrite Hfind in H. injection H as <- <-.
  exists l. split_and!; [done..|].
  split; [by eapply compressed_same_sets|].
  destruct Hc as (_ & Hin & Hout). intros x sx Hx.
  destruct (decide (x ∈ l)) as [Hxl|Hxl]; [right|left; by rewrite Hout].
  destruct (Hin x Hxl) as (s & sr & Hs & Hsr & Hc).
  destruct (path_nodes _ _ _ _ _ Hl Hxl) as (_ & l' & _ & _ & Hl' & _).
  exists r0, sr. split_and!; [by exists l'|done|congruence].
Qed.

(** Whenever [find_set(slot, i)] returns, on any array and with any
    recursion budget, what it returns is the root that the parent links
    lead to from [i], still a root afterwards with its cell untouched; the
    array is the old one with the path compressed (the nodes on the path
    get the root as parent and the root's [available_slot]); no [rank]
    changes, no cell off the path changes, and the partition into sets is
    the same. *)
Theorem find_set_sound fuel i f r f' :
  find_set fuel i f = Ret (r, f') →
  ∃ l sr,
    path f l i r ∧ get f r = Some sr ∧ get f' r = Some sr ∧ parent sr = r ∧
    compressed f l r f' ∧
    (∀ x s s', get f x = Some s → get f' x = Some s' → rank s' = rank s) ∧
    (∀ x y, same_set f' x y ↔ same_set f x y).
Proof.
  intros H. destruct (find_set_inv _ _ _ _ _ H) as (l & Hl & Hcd & Hc).
  destruct (path_end_root _ _ _ _ Hl) as (sr & Hsr & Hpr).
  destruct (Hc) as [(_ & Hreach & Hkeep) _].
  exists l, sr. split_and!; [done..| |done|done| |].
  - rewrite Hkeep; [done|by exists sr].
  - intros x s s' Hs Hs'. by eapply compression_rank.
  - intros x y. unfold same_set. by setoid_rewrite Hreach.
Qed.

Lemma find_set_sound_witness :
  ∃ l sr,
    path [SlotSet 0 0 1; SlotSet 1 0 0; SlotSet 2 1 0] l 2 0 ∧
    get [SlotSet 0 0 1; SlotSet 1 0 0; SlotSet 2 1 0] 0 = Some sr ∧
    get [SlotSet 0 0 1; SlotSet 0 0 0; SlotSet 0 0 0] 0 = Some sr ∧
    parent sr = 0 ∧
    compressed [SlotSet 0 0 1; SlotSet 1 0 0; SlotSet 2 1 0] l 0
      [SlotSet 0 0 1; SlotSet 0 0 0; SlotSet 0 0 0] ∧
    (∀ x s s',
       get [SlotSet 0 0 1; SlotSet 1 0 0; SlotSet 2 1 0] x = Some s →
       get [SlotSet 0 0 1; SlotSet 0 0 0; SlotSet 0 0 0] x = Some s' →
       rank s' = rank s) ∧
    (∀ x y,
       same_set [SlotSet 0 0 1; SlotSet 0 0 0; SlotSet 0 0 0] x y ↔
       same_set [SlotSet 0 0 1; SlotSet 1 0 0; SlotSet 2 1 0] x y).
Proof.
  apply (find_set_sound 3 2). reflexivity.
Defined.

Lemma root_of_complete f l i r :
  path f l i r → ∀ fuel, (length l < fuel)%nat → root_of fuel f i = Some r.
Proof.
  induction 1 as [r s Hs Hp|i s l r Hs Hp Hl IH]; intros [|fuel] Hfuel;
    try (simpl in Hfuel; lia); simpl; rewrite Hs.
  - by rewrite Hp, Z.eqb_refl.
  - destruct (Z.eqb_spec (parent s) i) as [|_]; [done|].
    apply IH. simpl in Hfuel. lia.
Qed.

Lemma root_of_None f i :
  root_of (length f) f i = None → ∀ r, ¬ reaches f i r.
Proof.
  intros Hnone r [l Hl].
  rewrite (root_of_complete _ _ _ _ Hl) in Hnone; [done|].
  by eapply path_length.
Qed.

Lemma follows_parent f i s x :
  get f i = Some s → follows f (parent s) x → follows f i x.
Proof.
  intros Hs. induction 1 as [|x sx _ IH Hsx].
  - eapply follows_link; [apply follows_here|done].
  - by eapply follows_link.
Qed.

(** When the parent links from [i] stay inside the array (every index
    met on the way from [i] is one of a cell; the cells off that way may
    hold anything) but never reach a root, that is they run into a cycle,
    [find_set(slot, i)] does not return: whatever the recursion budget,
    the budget is used up. *)
Theorem find_set_cycle_diverges f i :
  (∀ x, follows f i x → is_Some (get f x)) → (∀ r, ¬ reaches f i r) →
  ∀ fuel, find_set fuel i f = OutOfFuel.
Proof.
  intros Hin Hno fuel. revert i Hin Hno.
  induction fuel as [|fuel IH]; intros i Hin Hno; [done|].
  destruct (Hin i (follows_here f i)) as [s Hs].
  simpl. unfold bind at 1. rewrite (load_parent_Ret _ _ _ Hs).
  destruct (Z.eqb_spec i (parent s)) as [Heq|Hne]; simpl.
  - destruct (Hno i). exists []. by econstructor.
  - unfold bind at 1 2. rewrite IH; [done| |].
    + intros x Hx. apply Hin. by eapply follows_parent.
    + intros r [l Hl]. apply (Hno r). exists (i :: l). by econstructor.
Qed.

Lemma find_set_cycle_diverges_witness :
  (∀ x, follows [SlotSet 0 1 0; SlotSet 1 0 0; SlotSet 2 9 0] 0 x →
        is_Some (get [SlotSet 0 1 0; SlotSet 1 0 0; SlotSet 2 9 0] x)) ∧
  find_set 1000 0 [SlotSet 0 1 0; SlotSet 1 0 0; SlotSet 2 9 0] = OutOfFuel.
Proof.
  assert (Hin : ∀ x, follows [SlotSet 0 1 0; SlotSet 1 0 0; SlotSet 2 9 0] 0 x →
                     is_Some (get [SlotSet 0 1 0; SlotSet 1 0 0; SlotSet 2 9 0] x)).
  { intros x Hx.
    assert (x = 0 ∨ x = 1) as [->| ->]; [|by eexists..].
    induction Hx as [|x s _ [->| ->] Hs]; [by left|..];
      injection Hs as <-; auto. }
  split; [exact Hin|].
  apply (find_set_cycle_diverges _ 0 Hin).
  apply root_of_None. reflexivity.
Defined.

(** *** Initialisation *)

(** After the initialisation loop of [main], whatever the cells of the
    fresh array [slot0] held (each cell its own indeterminate record),
    every slot is a set of its own: its cell is
    [{available_slot = i, parent = i, rank = 0}], [find_set(slot, i)]
    returns [i] and leaves the array as it is, and no other slot is in
    the set of [i]. *)
Theorem initial_sets (slot0 : forest) :
  ∃ f,
    make_loop (length slot0) 0 slot0 = Ret (tt, f) ∧
    length f = length slot0 ∧
    (∀ i, 0 ≤ i < Z.of_nat (length slot0) → get f i = Some (SlotSet i i 0)) ∧
    (∀ i fuel, 0 ≤ i < Z.of_nat (length slot0) →
       find_set (S fuel) i f = Ret (i, f)) ∧
    (∀ i j, 0 ≤ i < Z.of_nat (length slot0) → same_set f i j → j = i).
Proof.
  destruct (make_loop_cells (length slot0) 0 slot0)
    as (f & Hrun & Hlen & Hin & _); [lia..|].
  set (size := Z.of_nat (length slot0)) in *.
  assert (Hcell : ∀ i, 0 ≤ i < size → get f i = Some (SlotSet i i 0))
    by (intros i Hi; apply Hin; lia).
  assert (Hroot : ∀ i, 0 ≤ i < size → path f [] i i)
    by (intros i Hi; econstructor; [by apply Hcell|done]).
  exists f. split_and!; [done..| |].
  - intros i fuel Hi.
    destruct (find_set_path _ _ _ _ (Hroot i Hi) (S fuel)) as (f' & Hfind & Hc);
      [simpl; lia|].
    rewrite Hfind. do 2 f_equal. eapply compressed_same; [done|].
    by intros x s sr ?%elem_of_nil.
  - intros i j Hi (r & [li Hri] & [lj Hrj]).
    destruct (path_det _ _ _ _ (Hroot i Hi) _ _ Hri) as [_ ->].
    assert (Hj : 0 ≤ j < size).
    { destruct Hrj as [? s Hs|? s ? ? Hs]; apply get_Some_range in Hs;
        unfold size; lia. }
    by destruct (path_det _ _ _ _ (Hroot j Hj) _ _ Hrj) as [_ ->].
Qed.

(** *** [unite] on two different sets *)

Lemma unite_inv fuel i j f f' :
  unite fuel i j f = Ret (tt, f') →
  ∃ ri rj fi fj,
    find_set fuel i f = Ret (ri, fi) ∧ find_set fuel j fi = Ret (rj, fj) ∧
    merge ri rj fj = Ret (tt, f').
Proof.
  unfold unite, bind. intros H.
  destruct (find_set fuel i f) as [[ri fi]| |] eqn:Hi; [|done..].
  destruct (find_set fuel j fi) as [[rj fj]| |] eqn:Hj; [|done..].
  by exists ri, rj, fi, fj.
Qed.

(** [unite(slot, a, b)] on slots of two different sets, of roots [ra] and
    [rb], makes one set of the two: afterwards [a] and [b] have the same
    representative [t], one of the two old roots; every slot of either set
    now reaches [t] and every other slot keeps its root; the united set
    offers the slot that the set of [b] offered; the cells of the other
    roots are untouched. *)
Theorem unite_joins fuel f a b ra rb sb :
  reaches f a ra → reaches f b rb → ra ≠ rb → get f rb = Some sb →
  (length f ≤ fuel)%nat →
  ∃ f' t,
    unite fuel a b f = Ret (tt, f') ∧
    (t = ra ∨ t = rb) ∧
    (∀ i x, reaches f i x →
            reaches f' i (if decide (x = ra ∨ x = rb) then t else x)) ∧
    same_set f' a b ∧
    resolves f' a (available_slot sb) ∧
    (∀ x, root f x → x ≠ ra → x ≠ rb → get f' x = get f x) ∧
    (∃ fa fb, find_set fuel a f' = Ret (t, fa) ∧ find_set fuel b f' = Ret (t, fb)).
Proof.
  intros Ha Hb Hne Hsb Hfuel.
  destruct (unite_distinct fuel f a b ra rb Ha Hb Hne Hfuel)
    as (f1 & f' & c & t & sj & Hun & Hsame & Hsj & Hct & Hlink).
  assert (sj = sb) as -> by congruence.
  destruct (Hsame) as (Hlen1 & Hreach & Hkeep).
  assert (Hra : root f1 ra).
  { apply (same_sets_root _ _ _ Hsame). destruct Ha as [l Hl].
    by eapply path_end_root. }
  assert (Hrb : root f1 rb).
  { apply (same_sets_root _ _ _ Hsame). destruct Hb as [l Hl].
    by eapply path_end_root. }
  assert (Hcroot : root f1 c ∧ root f1 t ∧ c ≠ t)
    by (destruct Hct as [[-> ->]|[-> ->]]; split_and!; done).
  destruct Hcroot as (Hc & Ht & Hctne).
  assert (Hto : ∀ i x, reaches f i x →
                  reaches f' i (if decide (x = ra ∨ x = rb) then t else x)).
  { intros i x Hx. apply Hreach in Hx.
    pose proof (linked_reaches _ _ _ _ _ _ _ Hc Ht Hctne Hlink Hx) as Hx'.
    destruct Hct as [[-> ->]|[-> ->]]; repeat case_decide;
      intuition (subst; first [done|congruence]). }
  assert (Hat : reaches f' a t).
  { specialize (Hto _ _ Ha). case_decide; [done|tauto]. }
  assert (Hbt : reaches f' b t).
  { specialize (Hto _ _ Hb). case_decide; [done|tauto]. }
  assert (Hlen' : (length f' ≤ fuel)%nat)
    by (destruct Hlink as (-> & _); lia).
  exists f', t. split_and!; [done| |done|by exists t| | |].
  - destruct Hct as [[-> ->]|[-> ->]]; [by right|by left].
  - destruct Hlink as (_ & (st & Hst & _ & Hav) & _). by exists t, st.
  - intros x Hx Hxa Hxb. destruct Hlink as (_ & _ & _ & Hoth).
    rewrite Hoth by (destruct Hct as [[-> ->]|[-> ->]]; done). by apply Hkeep.
  - destruct (find_set_reaches _ _ _ _ Hat Hlen') as (fa & Hfa & _).
    destruct (find_set_reaches _ _ _ _ Hbt Hlen') as (fb & Hfb & _).
    by exists fa, fb.
Qed.

Lemma unite_joins_witness :
  ∃ f' t,
    unite 3 2 0 [SlotSet 0 0 0; SlotSet 1 1 1; SlotSet 2 1 0] = Ret (tt, f') ∧
    (t = 1 ∨ t = 0) ∧
    (∀ i x, reaches [SlotSet 0 0 0; SlotSet 1 1 1; SlotSet 2 1 0] i x →
            reaches f' i (if decide (x = 1 ∨ x = 0) then t else x)) ∧
    same_set f' 2 0 ∧
    resolves f' 2 (available_slot (SlotSet 0 0 0)) ∧
    (∀ x, root [SlotSet 0 0 0; SlotSet 1 1 1; SlotSet 2 1 0] x →
          x ≠ 1 → x ≠ 0 →
          get f' x = get [SlotSet 0 0 0; SlotSet 1 1 1; SlotSet 2 1 0] x) ∧
    (∃ fa fb, find_set 3 2 f' = Ret (t, fa) ∧ find_set 3 0 f' = Ret (t, fb)).
Proof.
  apply (unite_joins 3 [SlotSet 0 0 0; SlotSet 1 1 1; SlotSet 2 1 0] 2 0 1 0).
  - apply (root_of_reaches 3). reflexivity.
  - apply (root_of_reaches 3). reflexivity.
  - lia.
  - reflexivity.
  - simpl. lia.
Defined.

(** [unite] returns, and its result does not depend on which of the two
    arguments of [merge] the compiler evaluates first: on slots that have
    roots, calling [find_set] on [j] before [i] gives the same array as
    calling it on [i] before [j]. *)
Theorem unite_argument_order fuel f i j ri rj :
  reaches f i ri → reaches f j rj → (length f ≤ fuel)%nat →
  ∃ f',
    unite fuel i j f = Ret (tt, f') ∧
    unite_right_to_left fuel i j f = Ret (tt, f').
Proof.
  intros Hi Hj Hfuel.
  assert (∃ f', unite fuel i j f = Ret (tt, f')) as [f' Hun].
  { destruct (decide (ri = rj)) as [<-|Hne].
    - destruct (find_set_compression _ _ _ _ Hi Hfuel) as (fi & Hfi & Hci).
      destruct (Hci) as [(Hleni & Hreachi & Hkeepi) _].
      destruct (find_set_compression fi j ri fuel) as (fj & Hfj & Hcj);
        [by apply Hreachi|lia|].
      assert (Hroot : root f ri)
        by (destruct Hi as [l Hl]; by eapply path_end_root).
      destruct (Hroot) as (sr & Hsr & _).
      destruct (compression_trans _ _ _ Hci Hcj) as [(_ & _ & Hkeep) _].
      eexists. unfold unite. run_with Hfi. run_with Hfj.
      apply merge_same_cell. by rewrite Hkeep.
    - destruct (unite_distinct fuel f i j ri rj Hi Hj Hne Hfuel)
        as (_ & f' & _ & _ & _ & Hun & _).
      by exists f'. }
  exists f'. split; [done|]. rewrite <- Hun. by eapply unite_order.
Qed.

Lemma unite_argument_order_witness :
  ∃ f',
    unite 4 3 2 [SlotSet 0 0 2; SlotSet 1 0 1; SlotSet 2 1 0; SlotSet 3 1 0]
      = Ret (tt, f') ∧
    unite_right_to_left 4 3 2
      [SlotSet 0 0 2; SlotSet 1 0 1; SlotSet 2 1 0; SlotSet 3 1 0]
      = Ret (tt, f').
Proof.
  apply (unite_argument_order 4 _ 3 2 0 0).
  - apply (root_of_reaches 4). reflexivity.
  - apply (root_of_reaches 4). reflexivity.
  - simpl. lia.
Defined.

(** *** The table of [display_all_sets] *)

Lemma compression_flat f f' x : compression f f' → flat f x → flat f' x.
Proof.
  intros [(_ & _ & Hkeep) Hcells] (s & sr & Hs & Hsr & Hpr & Hav).
  assert (Hroot : root f (parent s)) by by exists sr.
  assert (Hsr' : get f' (parent s) = Some sr) by by rewrite Hkeep.
  destruct (Hcells _ _ Hs) as [Hs'|(r & sr0 & Hr & Hsr0 & Hs')].
  - by exists s, sr.
  - assert (reaches f x (parent s)) as Hx.
    { destruct (decide (parent s = x)) as [Heq|Hne].
      - rewrite Heq. apply reaches_root. by rewrite <- Heq.
      - exists [x]. econstructor; [done..|]. by econstructor. }
    assert (r = parent s) as -> by by eapply reaches_det.
    assert (sr0 = sr) as -> by congruence.
    by exists (compressed_cell sr (parent s) s), sr.
Qed.

Lemma find_set_flat fuel i f r f' :
  find_set fuel i f = Ret (r, f') → flat f' i.
Proof.
  intros H. destruct (find_set_inv _ _ _ _ _ H) as (l & Hl & (_ & Hin & Hout) & _).
  destruct (path_end_root _ _ _ _ Hl) as (sr & Hsr & Hpr).
  assert (Hsr' : get f' r = Some sr).
  { rewrite Hout; [done|]. by eapply path_root_not_in. }
  destruct Hl as [r s Hs Hp|i s l r Hs Hp Hl].
  - exists sr, sr. by rewrite Hpr.
  - destruct (Hin i) as (s0 & sr0 & Hs0 & Hsr0 & Hc); [by left|].
    assert (sr0 = sr) as -> by congruence.
    by exists (compressed_cell sr r s0), sr.
Qed.

Lemma display_loop_sound fuel n : ∀ i f row f',
  display_loop fuel n i f = Ret (row, f') →
  compression f f' ∧ ∀ x, i ≤ x < i + Z.of_nat n → flat f' x.
Proof.
  induction n as [|n IH]; intros i f row f' H.
  - injection H as <- <-. split; [apply compression_refl|]. intros x Hx. lia.
  - simpl in H. unfold bind at 1 2 in H.
    destruct (find_set fuel i f) as [[r f1]| |] eqn:Hfind; [|done..].
    destruct (load_available_slot r f1) as [[a f1']| |] eqn:Hload; [|done..].
    assert (f1' = f1) as ->.
    { unfold load_available_slot, bind, load, ret in Hload.
      destruct (get f1 r); congruence. }
    unfold bind at 1 in H.
    destruct (display_loop fuel n (i + 1) f1) as [[row' f2]| |] eqn:Hrest;
      [|done..].
    injection H as <- <-.
    destruct (IH _ _ _ _ Hrest) as [Hc Hflat].
    destruct (find_set_inv _ _ _ _ _ Hfind) as (_ & _ & _ & Hc1).
    split; [by eapply compression_trans|].
    intros x Hx. destruct (decide (x = i)) as [->|Hne].
    + eapply compression_flat; [done|]. by eapply find_set_flat.
    + apply Hflat. lia.
Qed.

(** [display_all_sets] on a forest returns; its row has one entry per
    slot, the slot that the set of that slot offers; afterwards every cell
    points directly at the root its slot had before and stores that root's
    [available_slot], which is the entry of the row. *)
Theorem display_flattens fuel size f :
  wf_forest size f → (Z.to_nat size ≤ fuel)%nat →
  ∃ row f',
    display_all_sets fuel size f = Ret (row, f') ∧
    length row = Z.to_nat size ∧
    ∀ x, 0 ≤ x < size →
      ∃ s r sr,
        get f' x = Some s ∧ reaches f x r ∧ parent s = r ∧
        get f' r = Some sr ∧ parent sr = r ∧ get f r = Some sr ∧
        available_slot s = available_slot sr ∧
        row !! Z.to_nat x = Some (available_slot sr).
Proof.
  intros Hwf Hfuel.
  destruct (display_all_sets_spec fuel size f)
    as (row & f' & Hrun & Hcomp & Hlen & Hrow); [done|destruct Hwf; lia|].
  exists row, f'. split_and!; [done..|]. intros x Hx.
  destruct (display_loop_sound _ _ _ _ _ _ Hrun) as [_ Hflat].
  destruct (Hflat x) as (s & sr & Hs & Hsr & Hpr & Hav); [lia|].
  destruct (Hcomp) as [Hsame _]. destruct (Hsame) as (_ & Hreach & Hkeep).
  assert (Hroot' : root f' (parent s)) by by exists sr.
  assert (Hroot : root f (parent s)) by by apply (same_sets_root _ _ _ Hsame).
  assert (Hx' : reaches f' x (parent s)).
  { destruct (decide (parent s = x)) as [Heq|Hne].
    - rewrite Heq. apply reaches_root. by rewrite <- Heq.
    - exists [x]. econstructor; [done..|]. by econstructor. }
  exists s, (parent s), sr.
  split_and!; [done|by apply Hreach|done..|by rewrite <- Hkeep|done|].
  destruct (lookup_lt_is_Some_2 row (Z.to_nat x)) as [a Ha]; [lia|].
  rewrite Ha. f_equal.
  specialize (Hrow _ _ Ha). rewrite Z2Nat.id in Hrow by lia.
  eapply resolves_det; [exact Hrow|].
  exists (parent s), sr. split_and!; [by apply Hreach|by rewrite <- Hkeep|done].
Qed.

Lemma display_flattens_witness :
  ∃ row f',
    display_all_sets 3 3 [SlotSet 0 0 1; SlotSet 1 0 0; SlotSet 2 1 0]
      = Ret (row, f') ∧
    length row = Z.to_nat 3 ∧
    ∀ x, 0 ≤ x < 3 →
      ∃ s r sr,
        get f' x = Some s ∧
        reaches [SlotSet 0 0 1; SlotSet 1 0 0; SlotSet 2 1 0] x r ∧
        parent s = r ∧
        get f' r = Some sr ∧ parent sr = r ∧
        get [SlotSet 0 0 1; SlotSet 1 0 0; SlotSet 2 1 0] r = Some sr ∧
        available_slot s = available_slot sr ∧
        row !! Z.to_nat x = Some (available_slot sr).
Proof.
  apply display_flattens.
  - apply (check_forest_wf [SlotSet 0 0 1; SlotSet 1 0 0; SlotSet 2 1 0]).
    reflexivity.
  - simpl. lia.
Defined.

(** During a run on deadlines that are slots, the table displayed after
    [k < size] tasks tells, for every slot [s], which slot the next task
    would be given if its deadline were [s]: the entry for [s] is the
    latest slot at or before [s] not given yet, or the latest slot of all
    not given yet when there is none. *)
Theorem display_shows_next_slot fuel junk size ds diag (k : nat) :
  1 ≤ size < 2 ^ 32 → valid_deadlines size ds →
  (Z.to_nat size ≤ fuel)%nat → Z.of_nat k < size →
  ∃ out f row f',
    run_tasks fuel diag junk size ds k = (out, Ret f) ∧
    display_all_sets fuel size f = Ret (row, f') ∧
    length row = Z.to_nat size ∧
    ∀ s, 0 ≤ s < size →
      ∃ a, row !! Z.to_nat s = Some a ∧ latest_free size out.*2 s a.
Proof.
  intros Hsize Hds Hfuel Hk.
  destruct (run_tasks_spec fuel diag junk size ds k)
    as (out & f & Hrun & Hlen & Hgreedy & Hwf & HInv); [done..|lia| |].
  { apply valid_deadlines_in_range; [done|lia]. }
  destruct (display_all_sets_spec fuel size f)
    as (row & f' & Hdisp & Hcomp & Hlenr & Hrow); [done|destruct Hwf; lia|].
  exists out, f, row, f'. split_and!; [done..|]. intros s Hs.
  destruct (lookup_lt_is_Some_2 row (Z.to_nat s)) as [a Ha]; [lia|].
  exists a. split; [done|].
  specialize (Hrow _ _ Ha). rewrite Z2Nat.id in Hrow by lia.
  destruct (HInv Hk) as [_ Hall].
  destruct (Hall s Hs) as (r & sr & Hr & Hsr & Hav & Hfree & _ & Hbt).
  assert (available_slot sr = a) as <-.
  { eapply resolves_det; [|exact Hrow]. by exists r, sr. }
  eapply latest_free_ext; [|apply between_latest_free; done].
  intros x. apply elem_of_reverse.
Qed.

Lemma display_shows_next_slot_witness :
  ∃ out f row f',
    run_tasks 3 main_diag (SlotSet 0 0 0) 3 [1; 1; 1] 2 = (out, Ret f) ∧
    display_all_sets 3 3 f = Ret (row, f') ∧
    length row = Z.to_nat 3 ∧
    ∀ s, 0 ≤ s < 3 →
      ∃ a, row !! Z.to_nat s = Some a ∧ latest_free 3 out.*2 s a.
Proof.
  apply display_shows_next_slot.
  - lia.
  - split; [reflexivity|]. repeat constructor; lia.
  - simpl. lia.
  - lia.
Defined.

(** *** The last task *)

Lemma Inv_single_set size taken f :
  Inv size taken f → NoDup taken → (∀ x, x ∈ taken → 0 ≤ x < size) →
  Z.of_nat (length taken) = size - 1 →
  ∃ r sr,
    get f r = Some sr ∧ parent sr = r ∧
    0 ≤ available_slot sr < size ∧ (available_slot sr ∉ taken) ∧
    ∀ i, 0 ≤ i < size → reaches f i r.
Proof.
  intros [Hlen Hall] Hnd Hrange Hcount.
  destruct (Hall 0) as (r0 & sr0 & Hr0 & Hsr0 & Ha0 & Hfree0 & Har0 & _); [lia|].
  assert (Hroot0 : parent sr0 = r0).
  { destruct Hr0 as [l Hl]. destruct (path_end_root _ _ _ _ Hl) as (? & ? & ?).
    congruence. }
  exists r0, sr0. split_and!; [done..|lia|lia|done|]. intros i Hi.
  destruct (Hall i Hi) as (r & sr & Hr & Hsr & Ha & Hfree & Har & _).
  destruct (decide (available_slot sr = available_slot sr0)) as [Heq|Hne].
  - rewrite Heq in Har. by rewrite (reaches_det _ _ _ _ Har0 Har).
  - exfalso.
    assert (Hsub : available_slot sr :: available_slot sr0 :: taken
                   ⊆+ seqZ 0 size).
    { apply NoDup_submseteq.
      - apply list.NoDup_cons. split; [|by apply list.NoDup_cons].
        intros [?|?]%elem_of_cons; done.
      - intros x Hx. apply elem_of_seqZ.
        apply elem_of_cons in Hx as [->|Hx]; [lia|].
        apply elem_of_cons in Hx as [->|Hx]; [lia|].
        apply Hrange in Hx. lia. }
    apply submseteq_length in Hsub. rewrite length_seqZ in Hsub.
    simpl in Hsub. lia.
Qed.

(** When the last task comes, in a run on deadlines that are slots, all
    the slots are one set, and it offers the one slot [a] not given yet:
    the last task gets [a] whatever its deadline, and the union that [main]
    skips for it (line 113) would have had nothing to unite.  At the end
    of the run the slots are still one set [r], which still offers [a]. *)
Theorem one_set_at_last_task fuel junk size ds :
  1 ≤ size < 2 ^ 32 → valid_deadlines size ds →
  (Z.to_nat size ≤ fuel)%nat →
  ∃ out f a f_end r,
    run_tasks fuel main_diag junk size ds (Z.to_nat size - 1) = (out, Ret f) ∧
    (∀ i j, 0 ≤ i < size → 0 ≤ j < size → same_set f i j) ∧
    (∀ s, 0 ≤ s < size → resolves f s a) ∧
    0 ≤ a < size ∧ (a ∉ out.*2) ∧
    scheduler fuel junk size ds = (out ++ [(size - 1, a)], Ret f_end) ∧
    (∀ i, 0 ≤ i < size → reaches f_end i r) ∧
    resolves f_end r a.
Proof.
  intros Hsize Hds Hfuel.
  destruct (run_tasks_spec fuel main_diag junk size ds (Z.to_nat size - 1))
    as (out & f & Hrun & Hlen & Hgreedy & Hwf & HInv); [done..|lia| |].
  { apply valid_deadlines_in_range; [done|lia]. }
  assert (HInv' : Inv size (reverse out.*2) f) by (apply HInv; lia).
  destruct (greedy_slots _ _ _ _ _ Hgreedy) as (_ & Hnd & Hall).
  destruct (Inv_single_set size (reverse out.*2) f)
    as (r & sr & Hsr & Hpr & Ha & Hfree & Hone); [done| | | |].
  { by rewrite reverse_Permutation. }
  { intros x Hx. rewrite elem_of_reverse in Hx. by apply Hall in Hx as [? _]. }
  { rewrite length_reverse, length_fmap. lia. }
  assert (Hres : ∀ s, 0 ≤ s < size → resolves f s (available_slot sr))
    by (intros s Hs; exists r, sr; split_and!; [by apply Hone|done..]).
  destruct (valid_deadlines_in_range size ds (Z.to_nat size) Hds
              ltac:(lia) (size - 1)) as (d & Hd & Hdr); [lia|].
  destruct (slot_to_schedule_resolves f d (available_slot sr) fuel)
    as (f1 & Hpick & Hsame1); [by apply Hres|destruct Hwf; lia|].
  destruct (retire_slot_last fuel size (main_diag (size - 1)) (size - 1)
              (available_slot sr) f1) as (f2 & Hret & Hsame2).
  { by eapply wf_forest_same_sets. }
  { destruct Hsame1 as (-> & _). destruct Hwf. lia. }
  { rewrite u32_small; lia. }
  pose proof (same_sets_trans _ _ _ Hsame1 Hsame2) as Hsame.
  exists out, f, (available_slot sr), f2, r.
  split_and!; [done| |done|lia|lia| | | |].
  - intros i j Hi Hj. exists r. split; by apply Hone.
  - intros Hin. apply Hfree. by apply elem_of_reverse.
  - unfold scheduler, run.
    assert (Hn : Z.to_nat size = (Z.to_nat size - 1 + 1)%nat) by lia.
    rewrite Hn at 1. rewrite run_tasks_app, Hrun. simpl.
    replace (Z.of_nat (Z.to_nat size - 1)) with (size - 1) by lia.
    by rewrite Hd, Hpick, Hret.
  - intros i Hi. destruct Hsame as (_ & Hreach & _). by apply Hreach, Hone.
  - apply (resolves_same_sets _ _ _ _ Hsame). exists r, sr.
    split_and!; [|done..]. apply reaches_root. by exists sr.
Qed.

Lemma one_set_at_last_task_witness :
  ∃ out f a f_end r,
    run_tasks 3 main_diag (SlotSet 0 0 0) 3 [1; 1; 1] (Z.to_nat 3 - 1)
      = (out, Ret f) ∧
    (∀ i j, 0 ≤ i < 3 → 0 ≤ j < 3 → same_set f i j) ∧
    (∀ s, 0 ≤ s < 3 → resolves f s a) ∧
    0 ≤ a < 3 ∧ (a ∉ out.*2) ∧
    scheduler 3 (SlotSet 0 0 0) 3 [1; 1; 1] = (out ++ [(3 - 1, a)], Ret f_end) ∧
    (∀ i, 0 ≤ i < 3 → reaches f_end i r) ∧
    resolves f_end r a.
Proof.
  apply one_set_at_last_task.
  - lia.
  - split; [reflexivity|]. repeat constructor; lia.
  - simpl. lia.
Defined.

(** *** Union by rank *)

Lemma rank_along_path f l x r sx sr :
  (∀ x s p, get f x = Some s → parent s ≠ x →
            get f (parent s) = Some p → rank s < rank p) →
  path f l x r → get f x = Some sx → get f r = Some sr →
  rank sx + Z.of_nat (length l) ≤ rank sr.
Proof.
  intros Hup Hl. revert sx.
  induction Hl as [r s Hs Hp|x s l r Hs Hp Hl IH]; intros sx Hsx Hsr.
  - simpl. assert (sx = sr) by congruence. subst. lia.
  - assert (sx = s) as -> by congruence.
    assert (∃ sp, get f (parent s) = Some sp) as [sp Hsp]
      by (destruct Hl; by eexists).
    specialize (Hup _ _ _ Hs Hp Hsp). specialize (IH _ Hsp Hsr).
    simpl length. lia.
Qed.

Lemma members_in_range (f : forest) m size :
  Z.of_nat (length f) = size → NoDup m → (∀ i, i ∈ m → ∃ x, reaches f i x) →
  Z.of_nat (length m) ≤ size.
Proof.
  intros Hlen Hnd Hm.
  assert (Hsub : m ⊆+ seqZ 0 size).
  { apply NoDup_submseteq; [done|]. intros i Hi. apply elem_of_seqZ.
    destruct (Hm i Hi) as (x & l & Hl).
    assert (0 ≤ i < Z.of_nat (length f))
      by (destruct Hl as [? s Hs|? s ? ? Hs]; by apply get_Some_range in Hs).
    lia. }
  apply submseteq_length in Hsub. rewrite length_seqZ in Hsub. lia.
Qed.

Lemma compression_get f f' x s' :
  compression f f' → get f' x = Some s' → ∃ s, get f x = Some s.
Proof.
  intros [(Hlen & _) _] Hs'. apply get_in_range.
  apply get_Some_range in Hs'. lia.
Qed.

Lemma ranked_compression f f' : ranked f → compression f f' → ranked f'.
Proof.
  intros (Hpos & Hup & Hsize) Hc. destruct (Hc) as [Hsame Hcells].
  destruct (Hsame) as (Hlen & Hreach & Hkeep).
  split_and!.
  - intros x s' Hs'. destruct (compression_get _ _ _ _ Hc Hs') as [s Hs].
    rewrite (compression_rank _ _ _ _ _ Hc Hs Hs'). by eapply Hpos.
  - intros x s' p' Hs' Hp' Hpar.
    destruct (compression_get _ _ _ _ Hc Hs') as [s Hs].
    destruct (compression_get _ _ _ _ Hc Hpar) as [p Hp].
    rewrite (compression_rank _ _ _ _ _ Hc Hp Hpar).
    destruct (Hcells _ _ Hs) as [Hsame'|(r & sr & Hr & Hsr & Hcell)].
    + assert (s' = s) as -> by congruence. by eapply Hup.
    + assert (s' = compressed_cell sr r s) as -> by congruence.
      simpl in *. assert (p = sr) as -> by congruence.
      destruct Hr as [l Hl].
      pose proof (rank_along_path _ _ _ _ _ _ Hup Hl Hs Hsr) as Hle.
      destruct Hl as [r s0 Hs0 Hp0|x s0 l r Hs0 Hp0 Hl]; [done|].
      simpl length in Hle. lia.
  - intros r sr' Hsr' Hpr'.
    assert (Hroot : root f r)
      by (apply (same_sets_root _ _ _ Hsame); by exists sr').
    rewrite (Hkeep _ Hroot) in Hsr'.
    destruct (Hsize _ _ Hsr' Hpr') as (m & Hnd & Hm & Hpow).
    exists m. split_and!; [done| |done]. intros i. by rewrite Hm, Hreach.
Qed.

(** [merge] on two distinct roots of a ranked forest. *)
Lemma ranked_merge size f a b sa sb f' :
  wf_forest size f → size < 2 ^ 32 → ranked f →
  get f a = Some sa → parent sa = a →
  get f b = Some sb → parent sb = b → a ≠ b →
  merge a b f = Ret (tt, f') →
  wf_forest size f' ∧ ranked f'.
Proof.
  intros Hwf Hsize (Hpos & Hup & Htree) Ha Hpa Hb Hpb Hne Hm.
  destruct (merge_cells _ _ _ _ _ Ha Hb Hne) as (f1 & Hm1 & Hlen & Hoth & Hcells).
  assert (f1 = f') as -> by congruence. clear Hm1.
  destruct (merge_linked _ _ _ _ _ Ha Hpa Hb Hpb Hne)
    as (f2 & c & t & Hm2 & Hct & Hlink).
  assert (f2 = f') as -> by congruence. clear Hm2.
  assert (Hra : root f a) by by exists sa.
  assert (Hrb : root f b) by by exists sb.
  assert (Hcroot : root f c ∧ root f t ∧ c ≠ t)
    by (destruct Hct as [[-> ->]|[-> ->]]; split_and!; done).
  destruct Hcroot as (Hc & Ht & Hctne).
  destruct (Hwf) as [Hlenf Hall].
  assert (Hto : ∀ i x, reaches f i x →
                  reaches f' i (if decide (x = c) then t else x))
    by (intros i x; by eapply linked_reaches).
  assert (Hfrom : ∀ i y, reaches f' i y →
                    ∃ x, reaches f i x ∧ y = (if decide (x = c) then t else x)).
  { intros i y Hy.
    assert (0 ≤ i < size) as Hi.
    { destruct Hy as [l Hl].
      assert (0 ≤ i < Z.of_nat (length f'))
        by (destruct Hl as [? s Hs|? s ? ? Hs]; by apply get_Some_range in Hs).
      lia. }
    destruct (Hall i Hi) as [x Hx]. exists x. split; [done|].
    eapply reaches_det; [exact Hy|by apply Hto]. }
  assert (Hwf' : wf_forest size f').
  { split; [lia|]. intros i Hi. destruct (Hall i Hi) as [x Hx].
    eexists. by apply Hto. }
  split; [done|].
  destruct (Htree _ _ Ha Hpa) as (ma & Hnda & Hma & Hpowa).
  destruct (Htree _ _ Hb Hpb) as (mb & Hndb & Hmb & Hpowb).
  assert (Hndab : NoDup (ma ++ mb)).
  { apply list.NoDup_app. split_and!; [done| |done].
    intros i Hia Hib. apply Hma in Hia. apply Hmb in Hib.
    apply Hne. by eapply reaches_det. }
  assert (Hmab : ∀ i, i ∈ ma ++ mb ↔ reaches f' i t).
  { intros i. rewrite elem_of_app, Hma, Hmb. split.
    - intros [Hi|Hi]; specialize (Hto _ _ Hi);
        destruct Hct as [[-> ->]|[-> ->]]; by case_decide.
    - intros Hi. destruct (Hfrom _ _ Hi) as (x & Hx & Heq).
      destruct Hct as [[-> ->]|[-> ->]]; case_decide; subst; auto. }
  assert (Hlenab : Z.of_nat (length ma) + Z.of_nat (length mb) ≤ size).
  { rewrite <- Nat2Z.inj_add, <- length_app.
    apply (members_in_range f'); [lia|done|].
    intros i Hi. exists t. by apply Hmab. }
  assert (Hposa := Hpos _ _ Ha). assert (Hposb := Hpos _ _ Hb).
  assert (Hsmall : rank sa < 32).
  { apply (Z.pow_lt_mono_r_iff 2); [lia..|].
    eapply Z.le_lt_trans; [exact Hpowa|]. lia. }
  assert (Hu : u32 (rank sa + 1) = rank sa + 1) by (apply u32_small; lia).
  assert (Hrk : ∃ sa' sb',
            get f' a = Some sa' ∧ get f' b = Some sb' ∧
            rank sa ≤ rank sa' ∧ rank sb ≤ rank sb' ∧
            ∃ sc st, get f' c = Some sc ∧ get f' t = Some st ∧
                     parent sc = t ∧ parent st = t ∧
                     rank sc < rank st ∧
                     2 ^ rank st ≤ Z.of_nat (length (ma ++ mb))).
  { rewrite length_app, Nat2Z.inj_add.
    destruct (rank sa >? rank sb) eqn:Hgt.
    - destruct Hcells as [Hb' Ha'].
      assert (c = b ∧ t = a) as [-> ->].
      { destruct Hct as [[-> ->]|?]; [|done]. exfalso.
        destruct Hlink as (_ & (st & Hst & Hpt & _) & _).
        rewrite Hb' in Hst. injection Hst as <-. simpl in Hpt. done. }
      eexists _, _. split_and!; [exact Ha'|exact Hb'|simpl; lia..|].
      eexists _, _. split_and!; [exact Hb'|exact Ha'|done|done|simpl; lia|].
      simpl. lia.
    - destruct Hcells as [Ha' Hb'].
      assert (c = a ∧ t = b) as [-> ->].
      { destruct Hct as [?|[-> ->]]; [done|]. exfalso.
        destruct Hlink as (_ & (st & Hst & Hpt & _) & _).
        rewrite Ha' in Hst. injection Hst as <-. simpl in Hpt. done. }
      destruct (Z.eqb_spec (rank sa) (rank sb)) as [Heq|Hneq].
      + eexists _, _. split_and!; [exact Ha'|exact Hb'|simpl; lia..|].
        eexists _, _. split_and!; [exact Ha'|exact Hb'|done|done|simpl; lia|].
        simpl. rewrite Hu.
        replace (rank sa + 1) with (Z.succ (rank sa)) by lia.
        rewrite Z.pow_succ_r by done. rewrite Heq in Hpowa |- *. lia.
      + eexists _, _. split_and!; [exact Ha'|exact Hb'|simpl; lia..|].
        eexists _, _. split_and!; [exact Ha'|exact Hb'|done|done|simpl; lia|].
        lia. }
  destruct Hrk as (sa' & sb' & Ha' & Hb' & Hlea & Hleb
                   & sc & st & Hsc & Hst & Hpc & Hpt & Hlt & Hpow).
  destruct Hlink as (_ & _ & _ & Hothl).
  assert (Hothers : ∀ x, x ≠ a → x ≠ b → get f' x = get f x)
    by (intros; by apply Hoth).
  assert (Hmono : ∀ x s s', get f x = Some s → get f' x = Some s' →
                            rank s ≤ rank s').
  { intros x s s' Hs Hs'. destruct (decide (x = a)) as [->|Hxa];
      [assert (s = sa) by congruence; assert (s' = sa') by congruence;
       subst; lia|].
    destruct (decide (x = b)) as [->|Hxb];
      [assert (s = sb) by congruence; assert (s' = sb') by congruence;
       subst; lia|].
    rewrite Hothers in Hs' by done. assert (s' = s) by congruence.
    subst. lia. }
  split_and!.
  - intros x s' Hs'.
    destruct (get_in_range f x) as [s Hs];
      [apply get_Some_range in Hs'; lia|].
    specialize (Hmono _ _ _ Hs Hs'). specialize (Hpos _ _ Hs). lia.
  - intros x s' p' Hs' Hp' Hpar.
    destruct (decide (x = c)) as [->|Hxc].
    + assert (s' = sc) as -> by congruence. rewrite Hpc in Hpar.
      assert (p' = st) as -> by congruence. done.
    + destruct (decide (x = t)) as [->|Hxt];
        [assert (s' = st) by congruence; subst; done|].
      rewrite Hothl in Hs' by done.
      destruct (get_in_range f (parent s')) as [p Hp];
        [apply get_Some_range in Hpar; lia|].
      specialize (Hup _ _ _ Hs' Hp' Hp).
      specialize (Hmono _ _ _ Hp Hpar). lia.
  - intros r sr Hsr Hpr.
    destruct (decide (r = t)) as [->|Hrt].
    + assert (sr = st) as -> by congruence. by exists (ma ++ mb).
    + assert (r ≠ c) by (intros ->; congruence).
      rewrite Hothl in Hsr by done.
      destruct (Htree _ _ Hsr Hpr) as (m & Hnd & Hmm & Hpw).
      exists m. split_and!; [done| |done]. intros i. rewrite Hmm. split.
      * intros Hi. specialize (Hto _ _ Hi). by case_decide.
      * intros Hi. destruct (Hfrom _ _ Hi) as (x & Hx & Heq).
        case_decide; subst; [done|]. done.
Qed.

Lemma unite_distinct_inv fuel i j f f' :
  unite fuel i j f = Ret (tt, f') → ¬ same_set f i j →
  ∃ ri rj f1,
    reaches f i ri ∧ reaches f j rj ∧ ri ≠ rj ∧
    compression f f1 ∧ merge ri rj f1 = Ret (tt, f').
Proof.
  intros H Hdiff.
  destruct (unite_inv _ _ _ _ _ H) as (ri & rj & fi & fj & Hi & Hj & Hm).
  destruct (find_set_inv _ _ _ _ _ Hi) as (li & Hli & _ & Hci).
  destruct (find_set_inv _ _ _ _ _ Hj) as (lj & Hlj & _ & Hcj).
  assert (Hrj : reaches f j rj).
  { destruct Hci as [(_ & Hreach & _) _]. apply Hreach. by exists lj. }
  exists ri, rj, fj. split_and!; [by exists li|done| |by eapply compression_trans|done].
  intros <-. apply Hdiff. exists ri. split; [by exists li|done].
Qed.

Lemma singletons_ranked size f : singletons size f → ranked f.
Proof.
  intros [Hlen Hcells].
  assert (Hcell : ∀ x s, get f x = Some s → s = SlotSet x x 0).
  { intros x s Hs. pose proof (get_Some_range _ _ _ Hs).
    rewrite Hcells in Hs by lia. congruence. }
  split_and!.
  - intros x s Hs. by rewrite (Hcell _ _ Hs).
  - intros x s p Hs Hp. by rewrite (Hcell _ _ Hs) in Hp.
  - intros r sr Hsr Hpr. exists [r]. split_and!.
    + apply NoDup_singleton.
    + intros i. rewrite list_elem_of_singleton. split.
      * intros ->. apply reaches_root. by exists sr.
      * intros [l Hl]. destruct Hl as [r s Hs Hp|i s l r Hs Hp Hl]; [done|].
        by rewrite (Hcell _ _ Hs) in Hp.
    + rewrite (Hcell _ _ Hsr). simpl. lia.
Qed.

Lemma singletons_wf size f : singletons size f → wf_forest size f.
Proof. intros H. by eapply Inv_wf, singletons_Inv. Qed.

Lemma forest_ops_invariant size f0 f :
  singletons size f0 → size < 2 ^ 32 → forest_ops f0 f →
  wf_forest size f ∧ ranked f.
Proof.
  intros Hinit Hsize Hops.
  induction Hops as [|f1 f2 fuel i r _ IH Hfind|f1 f2 fuel i j _ IH Hdiff Hun].
  - split; [by apply singletons_wf|by eapply singletons_ranked].
  - destruct IH as [Hwf Hrk].
    destruct (find_set_inv _ _ _ _ _ Hfind) as (_ & _ & _ & Hc).
    split; [eapply wf_forest_same_sets; [done|apply Hc]|].
    by eapply ranked_compression.
  - destruct IH as [Hwf Hrk].
    destruct (unite_distinct_inv _ _ _ _ _ Hun Hdiff)
      as (ri & rj & f3 & Hi & Hj & Hne & Hc & Hm).
    destruct (Hc) as [Hsame _].
    assert (Hri : root f3 ri).
    { apply (same_sets_root _ _ _ Hsame). destruct Hi as [l Hl].
      by eapply path_end_root. }
    assert (Hrj : root f3 rj).
    { apply (same_sets_root _ _ _ Hsame). destruct Hj as [l Hl].
      by eapply path_end_root. }
    destruct Hri as (si & Hsi & Hpi). destruct Hrj as (sj & Hsj & Hpj).
    eapply (ranked_merge size f3 ri rj si sj); try done.
    + by eapply wf_forest_same_sets.
    + by eapply ranked_compression.
Qed.

(** Under union by rank a path to the root is short: [2^(length of the
    path)] is at most the number of slots. *)
Lemma ranked_depth size f l i r :
  wf_forest size f → ranked f → path f l i r →
  2 ^ Z.of_nat (length l) ≤ size.
Proof.
  intros [Hlen _] (Hpos & Hup & Htree) Hl.
  destruct (path_end_root _ _ _ _ Hl) as (sr & Hsr & Hpr).
  assert (∃ si, get f i = Some si) as [si Hsi] by (destruct Hl; by eexists).
  pose proof (rank_along_path _ _ _ _ _ _ Hup Hl Hsi Hsr) as Hle.
  pose proof (Hpos _ _ Hsi) as Hi0.
  destruct (Htree _ _ Hsr Hpr) as (m & Hnd & Hm & Hpow).
  etrans; [apply (Z.pow_le_mono_r 2 _ (rank sr)); lia|].
  etrans; [exact Hpow|].
  apply (members_in_range f); [done..|]. intros x Hx. exists r. by apply Hm.
Qed.

(** Union by rank holds for every use of the forest: from the initialised
    array of [size < 2^32] slots, after any [find_set] calls and any
    [unite] calls on slots of different sets, the parent links are still a
    forest, every rank is at least 0 and strictly smaller than the rank of
    the parent cell, and the tree of a root of rank [k] has at least [2^k]
    slots.  Hence every rank is below 32, so that [rank + 1] in [merge]
    never wraps, and no slot is more than [log2 size] parent links away
    from its root. *)
Theorem forest_ops_ranked size f0 f :
  singletons size f0 → size < 2 ^ 32 → forest_ops f0 f →
  wf_forest size f ∧ ranked f ∧
  (∀ x s, get f x = Some s → rank s < 32) ∧
  (∀ l i r, path f l i r → Z.of_nat (length l) ≤ Z.log2 size).
Proof.
  intros Hinit Hsize Hops.
  destruct (forest_ops_invariant size f0 f) as [Hwf Hrk]; [done..|].
  split_and!; [done..| |].
  - intros x s Hs. destruct (Hwf) as [Hlen Hall].
    destruct (Hall x) as (r & l & Hl); [apply get_Some_range in Hs; lia|].
    destruct (path_end_root _ _ _ _ Hl) as (sr & Hsr & Hpr).
    destruct (Hrk) as (Hpos & Hup & Htree).
    pose proof (rank_along_path _ _ _ _ _ _ Hup Hl Hs Hsr) as Hle.
    destruct (Htree _ _ Hsr Hpr) as (m & Hnd & Hm & Hpow).
    assert (Z.of_nat (length m) ≤ size).
    { apply (members_in_range f); [done..|]. intros y Hy. exists r. by apply Hm. }
    assert (rank sr < 32); [|lia].
    apply (Z.pow_lt_mono_r_iff 2); [lia..|]. lia.
  - intros l i r Hl. pose proof (ranked_depth _ _ _ _ _ Hwf Hrk Hl) as Hd.
    apply Z.log2_le_pow2; [|done].
    assert (0 < 2 ^ Z.of_nat (length l)) by (apply Z.pow_pos_nonneg; lia). lia.
Qed.

Lemma root_of_different_sets fuel f i j ri rj :
  root_of fuel f i = Some ri → root_of fuel f j = Some rj → ri ≠ rj →
  ¬ same_set f i j.
Proof.
  intros Hi%root_of_reaches Hj%root_of_reaches Hne (r & Hir & Hjr).
  apply Hne. rewrite (reaches_det _ _ _ _ Hi Hir).
  by rewrite (reaches_det _ _ _ _ Hj Hjr).
Qed.

Lemma forest_ops_ranked_witness :
  wf_forest 2 [SlotSet 0 0 1; SlotSet 1 0 0] ∧
  ranked [SlotSet 0 0 1; SlotSet 1 0 0] ∧
  (∀ x s, get [SlotSet 0 0 1; SlotSet 1 0 0] x = Some s → rank s < 32) ∧
  (∀ l i r, path [SlotSet 0 0 1; SlotSet 1 0 0] l i r →
            Z.of_nat (length l) ≤ Z.log2 2).
Proof.
  apply (forest_ops_ranked 2 [SlotSet 0 0 0; SlotSet 1 1 0]).
  - split; [reflexivity|]. intros x Hx.
    assert (x = 0 ∨ x = 1) as [-> | ->] by lia; reflexivity.
  - lia.
  - apply (ops_unite _ [SlotSet 0 0 0; SlotSet 1 1 0] _ 2 1 0).
    + apply ops_none.
    + apply (root_of_different_sets 2 _ 1 0 1 0); [reflexivity..|lia].
    + reflexivity.
Defined.


(** *** The scheduler as a user of the forest *)

Lemma forest_ops_trans f f1 f2 :
  forest_ops f f1 → forest_ops f1 f2 → forest_ops f f2.
Proof.
  intros H1 H2. induction H2 as [|f3 f4 fuel i r _ IH Hfind|f3 f4 fuel i j _ IH Hd Hun];
    [done|by eapply ops_find|by eapply ops_unite].
Qed.

Lemma display_loop_ops fuel n : ∀ i f row f',
  display_loop fuel n i f = Ret (row, f') → forest_ops f f'.
Proof.
  induction n as [|n IH]; intros i f row f' H.
  - injection H as <- <-. apply ops_none.
  - simpl in H. unfold bind at 1 2 in H.
    destruct (find_set fuel i f) as [[r f1]| |] eqn:Hfind; [|done..].
    destruct (load_available_slot r f1) as [[a f1']| |] eqn:Hload; [|done..].
    assert (f1' = f1) as ->.
    { unfold load_available_slot, bind, load, ret in Hload.
      destruct (get f1 r); congruence. }
    unfold bind at 1 in H.
    destruct (display_loop fuel n (i + 1) f1) as [[row' f2]| |] eqn:Hrest;
      [|done..].
    injection H as <- <-.
    eapply forest_ops_trans; [|by eapply IH].
    eapply ops_find; [apply ops_none|done].
Qed.

Lemma repeat_display_ops fuel size diag : ∀ f f',
  repeat_display fuel size diag f = Ret (tt, f') → forest_ops f f'.
Proof.
  induction diag as [|diag IH]; intros f f' H.
  - injection H as <-. apply ops_none.
  - simpl in H. unfold bind at 1 in H.
    destruct (display_all_sets fuel size f) as [[row f1]| |] eqn:Hd; [|done..].
    eapply forest_ops_trans; [by eapply display_loop_ops|by eapply IH].
Qed.

Lemma slot_to_schedule_ops fuel d f a f' :
  slot_to_schedule fuel d f = Ret (a, f') → forest_ops f f'.
Proof.
  unfold slot_to_schedule, bind. intros H.
  destruct (find_set fuel d f) as [[r f1]| |] eqn:Hfind; [|done..].
  assert (f' = f1) as ->.
  { unfold load_available_slot, bind, load, ret in H.
    destruct (get f1 r); congruence. }
  eapply ops_find; [apply ops_none|done].
Qed.

Lemma Inv_pred_distinct size taken f a :
  Inv size taken f → resolves f a a → 0 ≤ a < size →
  1 + Z.of_nat (length taken) < size →
  ¬ same_set f a (pred_slot size a).
Proof.
  intros [Hlen Hall] (r & sr & Hr & Hsr & Hav) Ha Hlast (r' & Har & Hpr).
  assert (r' = r) as -> by exact (reaches_det _ _ _ _ Har Hr).
  assert (Hp : 0 ≤ pred_slot size a < size)
    by (unfold pred_slot; destruct (Z.eqb_spec a 0); lia).
  destruct (Hall _ Hp) as (r' & sr' & Hr' & Hsr' & _ & _ & _ & Hbt).
  assert (r' = r) as -> by exact (reaches_det _ _ _ _ Hr' Hpr).
  assert (sr' = sr) as -> by congruence.
  apply (Z.lt_irrefl size). eapply Z.le_lt_trans; [|exact Hlast].
  etrans; [apply (covering_length size (a :: taken))|simpl; lia].
  intros j Hj. apply elem_of_cons.
  destruct (decide (j = a)) as [|Hja]; [by left|right].
  apply Hbt. rewrite Hav. by apply between_all.
Qed.

Lemma schedule_loop_ops fuel size diag ds n : ∀ i taken f out f',
  Inv size taken f → 1 ≤ size < 2 ^ 32 → (Z.to_nat size ≤ fuel)%nat →
  i = Z.of_nat (length taken) → i + Z.of_nat n ≤ size →
  deadlines_in_range size ds i n →
  schedule_loop fuel size diag ds n i f = (out, Ret f') →
  forest_ops f f'.
Proof.
  induction n as [|n IH]; intros i taken f out f' HInv Hsize Hfuel Hi Hn Hds H.
  - injection H as <- <-. apply ops_none.
  - destruct (Hds i) as (d & Hd & Hdr); [lia|].
    destruct (schedule_iteration fuel size (diag i) taken i d f)
      as (a & f1 & f2 & Hpick & Hret & Hlatest & Hwf2 & HInv2); [done..|lia|done|].
    simpl in H. rewrite Hd, Hpick, Hret in H.
    destruct (schedule_loop fuel size diag ds n (i + 1) f2) as [out' res] eqn:Hrest.
    injection H as <- ->.
    assert (Hstep : forest_ops f f2).
    { eapply forest_ops_trans; [by eapply slot_to_schedule_ops|].
      unfold retire_slot in Hret. unfold bind at 1 in Hret.
      destruct (Z.eqb_spec i (u32 (size - 1))) as [Heq|Hneq]; simpl in Hret.
      - by eapply repeat_display_ops.
      - set (p := if a =? 0 then u32 (size - 1) else u32 (a - 1)) in *.
        destruct (unite fuel a p f1) as [[[] fu]| |] eqn:Hun; [|done..].
        eapply forest_ops_trans; [|by eapply repeat_display_ops].
        eapply ops_unite; [apply ops_none| |exact Hun].
        rewrite u32_small in Hneq by lia.
        destruct (HInv) as [Hlen Hall].
        destruct (Hall d Hdr) as (r & sr & Hr & Hsr & Hav & Hfree & Har & _).
        destruct (slot_to_schedule_resolves f d (available_slot sr) fuel)
          as (f1' & Hpick' & Hsame1); [by exists r, sr|lia|].
        assert (a = available_slot sr ∧ f1' = f1) as [Heqa ->]
          by (split; congruence).
        assert (p = pred_slot size a) as ->.
        { unfold p, pred_slot. destruct (Z.eqb_spec a 0);
            rewrite u32_small; lia. }
        rewrite Heqa.
        eapply (Inv_pred_distinct size taken).
        + by eapply Inv_same_sets.
        + apply (resolves_same_sets _ _ _ _ Hsame1). by exists r, sr.
        + done.
        + lia. }
    eapply forest_ops_trans; [exact Hstep|].
    destruct n as [|n].
    + injection Hrest as <- <-. apply ops_none.
    + eapply (IH (i + 1) (a :: taken));
        [apply HInv2; lia|done..|simpl; lia|lia| |exact Hrest].
      intros k Hk. apply Hds. lia.
Qed.

Lemma run_tasks_ops fuel diag junk size ds (k : nat) :
  1 ≤ size < 2 ^ 32 → valid_deadlines size ds →
  (Z.to_nat size ≤ fuel)%nat → Z.of_nat k ≤ size →
  ∃ out f0 f,
    run_tasks fuel diag junk size ds k = (out, Ret f) ∧
    singletons size f0 ∧ forest_ops f0 f.
Proof.
  intros Hsize Hds Hfuel Hk.
  destruct (run_tasks_spec fuel diag junk size ds k)
    as (out & f & Hrun & _); [done..| |].
  { by apply valid_deadlines_in_range. }
  destruct (make_loop_alloc junk size) as (f0 & Hinit & Hsingle); [lia|].
  exists out, f0, f. split_and!; [done..|].
  unfold run_tasks in Hrun. rewrite Hinit in Hrun.
  eapply (schedule_loop_ops fuel size diag ds k 0 []);
    [by apply singletons_Inv|done..|lia| |exact Hrun].
  by apply valid_deadlines_in_range.
Qed.

(** Union by rank keeps the trees of the scheduler shallow.  In the state
    after any number [k] of tasks of a run on deadlines that are slots,
    the ranks satisfy union by rank, every slot is at most [log2 size]
    parent links away from its root, and [find_set] on it returns within
    [log2 size + 1] nested calls. *)
Theorem scheduler_trees_are_shallow fuel junk size ds diag (k : nat) :
  1 ≤ size < 2 ^ 32 → valid_deadlines size ds →
  (Z.to_nat size ≤ fuel)%nat → Z.of_nat k ≤ size →
  ∃ out f,
    run_tasks fuel diag junk size ds k = (out, Ret f) ∧
    ranked f ∧
    ∀ s, 0 ≤ s < size →
      ∃ l r,
        path f l s r ∧ Z.of_nat (length l) ≤ Z.log2 size ∧
        ∀ budget, (Z.to_nat (Z.log2 size) < budget)%nat →
          ∃ f', find_set budget s f = Ret (r, f').
Proof.
  intros Hsize Hds Hfuel Hk.
  destruct (run_tasks_ops fuel diag junk size ds k)
    as (out & f0 & f & Hrun & Hinit & Hops); [done..|].
  destruct (forest_ops_invariant size f0 f) as [Hwf Hrk]; [done|lia|done|].
  exists out, f. split_and!; [done..|]. intros s Hs.
  destruct (Hwf) as [_ Hall]. destruct (Hall s Hs) as (r & l & Hl).
  assert (Hdepth : Z.of_nat (length l) ≤ Z.log2 size).
  { apply Z.log2_le_pow2; [lia|]. by eapply ranked_depth. }
  exists l, r. split_and!; [done..|]. intros budget Hb.
  destruct (find_set_path _ _ _ _ Hl budget) as (f' & Hfind & _); [lia|].
  by exists f'.
Qed.

Lemma scheduler_trees_are_shallow_witness :
  ∃ out f,
    run_tasks 3 main_diag (SlotSet 0 0 0) 3 [1; 1; 1] 2 = (out, Ret f) ∧
    ranked f ∧
    ∀ s, 0 ≤ s < 3 →
      ∃ l r,
        path f l s r ∧ Z.of_nat (length l) ≤ Z.log2 3 ∧
        ∀ budget, (Z.to_nat (Z.log2 3) < budget)%nat →
          ∃ f', find_set budget s f = Ret (r, f').
Proof.
  apply scheduler_trees_are_shallow.
  - lia.
  - split; [reflexivity|]. repeat constructor; lia.
  - simpl. lia.
  - lia.
Defined.

(** *** Sets only grow *)

Lemma merge_roots_same_set f a b f' :
  root f a → root f b → a ≠ b → merge a b f = Ret (tt, f') →
  ∀ i j, same_set f i j → same_set f' i j.
Proof.
  intros (sa & Ha & Hpa) (sb & Hb & Hpb) Hne Hm i j (r & Hi & Hj).
  destruct (merge_linked _ _ _ _ _ Ha Hpa Hb Hpb Hne)
    as (f2 & c & t & Hm2 & Hct & Hlink).
  assert (f2 = f') as -> by congruence.
  assert (Hcroot : root f c ∧ root f t ∧ c ≠ t).
  { destruct Hct as [[-> ->]|[-> ->]]; split_and!; try done;
      by eexists. }
  destruct Hcroot as (Hc & Ht & Hctne).
  exists (if decide (r = c) then t else r).
  split; by eapply linked_reaches.
Qed.

(** [make_set] on a slot in use is no such operation: it can take a slot
    out of its set. *)
Lemma make_set_can_split :
  same_set [SlotSet 0 0 1; SlotSet 1 0 0] 0 1 ∧
  ∃ f', make_set 1 [SlotSet 0 0 1; SlotSet 1 0 0] = Ret (tt, f') ∧
        ¬ same_set f' 0 1.
Proof.
  split.
  - exists 0. split; apply (root_of_reaches 2); reflexivity.
  - eexists. split; [reflexivity|].
    by apply (root_of_different_sets 2 _ 0 1 0 1).
Qed.

(** Under [find_set] and [unite], slots that are in the same set stay in
    the same set: after any sequence of calls of [find_set] and of
    [unite] on slots of different sets (the calls that [forest_ops]
    collects; [main] makes no others once the array is initialised), two
    slots that were in one set still are.  The theorem does not cover
    [make_set] or [merge] called directly. *)
Theorem sets_only_grow f f' i j :
  forest_ops f f' → same_set f i j → same_set f' i j.
Proof.
  intros Hops Hij.
  induction Hops as [|f1 f2 fuel x r _ IH Hfind|f1 f2 fuel x y _ IH Hdiff Hun];
    [done| |].
  - destruct (find_set_inv _ _ _ _ _ Hfind) as (_ & _ & _ & [(_ & Hreach & _) _]).
    destruct IH as (r0 & Hi & Hj). exists r0. split; by apply Hreach.
  - destruct (unite_distinct_inv _ _ _ _ _ Hun Hdiff)
      as (rx & ry & f3 & Hx & Hy & Hne & [Hsame _] & Hm).
    destruct (Hsame) as (_ & Hreach & _).
    eapply (merge_roots_same_set f3 rx ry); [| |done|done|].
    + apply (same_sets_root _ _ _ Hsame). destruct Hx as [l Hl].
      by eapply path_end_root.
    + apply (same_sets_root _ _ _ Hsame). destruct Hy as [l Hl].
      by eapply path_end_root.
    + destruct IH as (r0 & Hi & Hj). exists r0. split; by apply Hreach.
Qed.

Lemma sets_only_grow_witness :
  same_set [SlotSet 0 0 2; SlotSet 1 0 1; SlotSet 2 1 0; SlotSet 3 0 0] 2 1.
Proof.
  apply (sets_only_grow
           [SlotSet 0 0 1; SlotSet 1 1 1; SlotSet 2 1 0; SlotSet 3 3 0]).
  - apply (ops_unite _
             [SlotSet 0 0 1; SlotSet 1 1 1; SlotSet 2 1 0; SlotSet 3 0 0]
             _ 4 1 0).
    + apply (ops_unite _
               [SlotSet 0 0 1; SlotSet 1 1 1; SlotSet 2 1 0; SlotSet 3 3 0]
               _ 4 3 0).
      * apply ops_none.
      * apply (root_of_different_sets 4 _ 3 0 3 0); [reflexivity..|lia].
      * reflexivity.
    + apply (root_of_different_sets 4 _ 1 0 1 0); [reflexivity..|lia].
    + reflexivity.
  - exists 1. split; apply (root_of_reaches 4); reflexivity.
Defined.

(** *** No deadline is missed unless one must be *)

Lemma get_of_nat {A : Type} (l : list A) (k : nat) :
  get l (Z.of_nat k) = l !! k.
Proof.
  unfold get. destruct (Z.ltb_spec (Z.of_nat k) 0) as [?|_]; [lia|].
  by rewrite Nat2Z.id.
Qed.

Lemma least_free (taken : list Z) (n : nat) :
  (∀ j, 0 ≤ j < Z.of_nat n → j ∈ taken) ∨
  ∃ f, 0 ≤ f < Z.of_nat n ∧ (f ∉ taken) ∧ ∀ j, 0 ≤ j < f → j ∈ taken.
Proof.
  induction n as [|n [IH|IH]].
  - left. lia.
  - destruct (decide (Z.of_nat n ∈ taken)) as [Hin|Hout].
    + left. intros j Hj.
      destruct (decide (j = Z.of_nat n)) as [->|]; [done|]. apply IH. lia.
    + right. exists (Z.of_nat n). split_and!; [lia|lia|done|].
      intros j Hj. apply IH. lia.
  - right. destruct IH as (f & ? & ? & ?). exists f.
    split_and!; [lia|lia|done..].
Qed.

Lemma greedy_all_on_time size ds σ out :
  greedy size ds [] 0 out → on_time_schedule ds σ →
  ∀ (k : nat) t a, out !! k = Some (t, a) →
    ∃ d, get ds t = Some d ∧ a ≤ d.
Proof.
  intros Hg [Hnd Hσ] k t a Hk.
  destruct (greedy_lookup _ _ _ _ _ _ _ _ Hg Hk) as (Ht & d & Hd & Hl).
  rewrite app_nil_r in Hl. exists d. split; [done|].
  destruct (Z.le_gt_cases a d) as [|Hlate]; [done|exfalso].
  destruct Hl as (Ha & Hfree & [[Hle _]|[Hlow Hhigh]]); [lia|].
  set (taken := (take k out).*2) in *.
  destruct (least_free taken (Z.to_nat (a + 1)))
    as [Hall|(f & Hf & Hffree & Hbelow)].
  { apply Hfree, Hall. lia. }
  assert (Hfd : d < f).
  { destruct (Z.le_gt_cases f d); [|lia]. destruct Hffree. apply Hlow. lia. }
  assert (Hslot : ∀ (i : nat) d0, get ds (Z.of_nat i) = Some d0 →
                    ∃ a0, σ !! i = Some a0 ∧ 0 ≤ a0 ≤ d0).
  { intros i d0 H0. rewrite get_of_nat in H0.
    destruct (Forall2_lookup_l _ _ _ _ _ Hσ H0) as (a0 & Ha0 & Hr0).
    by exists a0. }
  assert (Hearlier : ∀ p, p ∈ take k out →
            ∃ (k' : nat) (a' : Z), (k' < k)%nat ∧ out !! k' = Some p ∧
              σ !! k' = Some a' ∧ 0 ≤ a' ∧ (p.2 < f → a' < f)).
  { intros [t' a'] (k' & Hk' & Hlt)%elem_of_take.
    destruct (greedy_lookup _ _ _ _ _ _ _ _ Hg Hk') as (Ht' & d' & Hd' & Hl').
    rewrite app_nil_r in Hl'.
    assert (t' = Z.of_nat k') as -> by lia.
    destruct (Hslot _ _ Hd') as (a0 & Ha0 & Hr0).
    exists k', a0. split_and!; [done..|lia|]. simpl. intros Ha'f.
    enough (d' < f) by lia.
    assert (Hf' : f ∉ (take k' out).*2).
    { intros Hin. apply Hffree. unfold taken.
      apply list_elem_of_fmap in Hin as (p & -> & Hp).
      apply list_elem_of_fmap. exists p. split; [done|].
      apply elem_of_take in Hp as (i & Hi & Hik'). apply elem_of_take.
      exists i. split; [done|lia]. }
    destruct Hl' as (Ha' & _ & [[Hle' Hbt']|[_ Hhigh']]).
    - destruct (Z.le_gt_cases f d'); [|lia]. destruct Hf'. apply Hbt'. lia.
    - destruct Hf'. apply Hhigh'. lia. }
  set (L := filter (λ p : Z * Z, p.2 < f) (take k out)).
  assert (HLin : ∀ p, p ∈ L → p ∈ take k out ∧ p.2 < f)
    by (intros p Hp%list_elem_of_filter; tauto).
  assert (HlenL : f ≤ Z.of_nat (length L)).
  { rewrite <- (length_fmap snd). apply covering_length. intros j Hj.
    specialize (Hbelow j Hj). unfold taken in Hbelow.
    apply list_elem_of_fmap in Hbelow as (p & -> & Hp).
    apply list_elem_of_fmap. exists p. split; [done|].
    apply list_elem_of_filter. split; [lia|done]. }
  set (g := λ p : Z * Z, default 0 (σ !! Z.to_nat p.1)).
  assert (Hgk : ∃ a0, σ !! k = Some a0 ∧ 0 ≤ a0 < f).
  { destruct (Hslot k d) as (a0 & Ha0 & Hr0); [by replace (Z.of_nat k) with t by lia|].
    exists a0. split; [done|lia]. }
  destruct Hgk as (ak & Hak & Hakr).
  assert (HgL : ∀ p, p ∈ L →
            ∃ (k' : nat) a', (k' < k)%nat ∧ out !! k' = Some p ∧
              σ !! k' = Some a' ∧ g p = a' ∧ 0 ≤ a' < f).
  { intros p Hp. destruct (HLin p Hp) as [Hp' Hpf].
    destruct (Hearlier p Hp') as (k' & a' & Hlt & Hk' & Ha' & H0 & Hlt').
    exists k', a'. split_and!; [done..| |lia|by apply Hlt'].
    destruct p as [tp ap].
    destruct (greedy_lookup _ _ _ _ _ _ _ _ Hg Hk') as (Ht' & _).
    unfold g. replace (Z.to_nat (tp, ap).1) with k' by (simpl; lia).
    by rewrite Ha'. }
  assert (HndL : NoDup L).
  { apply list.NoDup_filter. eapply sublist_NoDup; [|apply sublist_take].
    apply (NoDup_fmap_1 fst).
    destruct (greedy_slots _ _ _ _ _ Hg) as (-> & _). apply NoDup_seqZ. }
  assert (HN : NoDup (ak :: (g <$> L))).
  { apply list.NoDup_cons. split.
    - intros (p & Heq & Hp)%list_elem_of_fmap.
      destruct (HgL p Hp) as (k' & a' & Hlt & _ & Ha' & <- & _).
      rewrite <- Heq in Ha'.
      pose proof (NoDup_lookup _ _ _ _ Hnd Hak Ha'). lia.
    - apply NoDup_fmap_2_strong; [|done]. intros p q Hp Hq Heq.
      destruct (HgL p Hp) as (kp & ap & _ & Hkp & Hap & <- & _).
      destruct (HgL q Hq) as (kq & aq & _ & Hkq & Haq & <- & _).
      rewrite <- Heq in Haq.
      pose proof (NoDup_lookup _ _ _ _ Hnd Hap Haq) as <-. congruence. }
  assert (Hsub : ak :: (g <$> L) ⊆+ seqZ 0 f).
  { apply NoDup_submseteq; [done|]. intros x Hx. apply elem_of_seqZ.
    apply elem_of_cons in Hx as [->|(p & -> & Hp)%list_elem_of_fmap]; [lia|].
    destruct (HgL p Hp) as (_ & a' & _ & _ & _ & -> & ?). lia. }
  apply submseteq_length in Hsub. rewrite length_seqZ in Hsub.
  simpl in Hsub. rewrite length_fmap in Hsub. lia.
Qed.

(** The scheduler misses no deadline unless one must be missed: on
    deadlines that are slots, every task is given a slot at or before its
    deadline exactly when some assignment of the tasks to distinct slots
    does so. *)
Theorem no_deadline_missed_when_feasible fuel junk size ds :
  1 ≤ size < 2 ^ 32 → valid_deadlines size ds →
  (Z.to_nat size ≤ fuel)%nat →
  ∃ out f,
    scheduler fuel junk size ds = (out, Ret f) ∧
    ((∃ σ, on_time_schedule ds σ) ↔
     (∀ t a, (t, a) ∈ out → ∃ d, get ds t = Some d ∧ a ≤ d)).
Proof.
  intros Hsize Hds Hfuel.
  destruct (run_spec fuel main_diag junk size ds)
    as (out & f & Hrun & Hlen & Hgreedy & _); [done..|].
  exists out, f. split; [done|]. split.
  - intros [σ Hσ] t a (k & Hk)%list_elem_of_lookup_1.
    by eapply greedy_all_on_time.
  - intros Hall. exists out.*2.
    destruct (greedy_slots _ _ _ _ _ Hgreedy) as (_ & Hnd & Hrange).
    split; [done|].
    apply Forall2_same_length_lookup_2.
    + rewrite length_fmap. destruct Hds. lia.
    + intros k d a Hd Ha.
      rewrite list_lookup_fmap in Ha.
      destruct (out !! k) as [[t a']|] eqn:Hk; [|done].
      injection Ha as <-.
      destruct (greedy_lookup _ _ _ _ _ _ _ _ Hgreedy Hk) as (Ht & _).
      destruct (Hall t a') as (d' & Hd' & Hle);
        [by eapply list_elem_of_lookup_2|].
      assert (t = Z.of_nat k) as -> by lia. rewrite get_of_nat in Hd'.
      assert (d' = d) as -> by congruence. split; [|done].
      apply Hrange. apply list_elem_of_fmap. exists (Z.of_nat k, a').
      split; [done|]. by eapply list_elem_of_lookup_2.
Qed.

Lemma no_deadline_missed_when_feasible_witness :
  ∃ out f,
    scheduler 3 (SlotSet 0 0 0) 3 [1; 1; 2] = (out, Ret f) ∧
    ((∃ σ, on_time_schedule [1; 1; 2] σ) ↔
     (∀ t a, (t, a) ∈ out → ∃ d, get [1; 1; 2] t = Some d ∧ a ≤ d)).
Proof.
  apply no_deadline_missed_when_feasible.
  - lia.
  - split; [reflexivity|]. repeat constructor; lia.
  - simpl. lia.
Defined.

(** *** The random branch of [main] *)

(** The deadlines that [main] draws are always slots: whatever [rand()]
    returns, for every [size >= 1] the table holds [size] deadlines in
    [0, size), each being [rand() % size] computed in [unsigned int].
    The random branch therefore meets the input contract of the
    scheduling loop ([valid_deadlines]), and the loop on these deadlines
    indexes [slot] inside the array, ends normally and gives every slot
    to exactly one task.  This is about the arrays [deadline_of_task]
    and [slot] only: the text buffers that [sprintf] fills are outside
    the state of the loop, and [format_buffers_fit] shows that they are
    overrun when [size < 100]. *)
Theorem random_run_completes fuel junk size rands :
  1 ≤ size < 2 ^ 32 → Z.of_nat (length rands) = size →
  (Z.to_nat size ≤ fuel)%nat →
  valid_deadlines size (random_deadlines size rands) ∧
  ∃ out f,
    scheduler fuel junk size (random_deadlines size rands) = (out, Ret f) ∧
    out.*1 = seqZ 0 size ∧
    out.*2 ≡ₚ seqZ 0 size.
Proof.
  intros Hsize Hlen Hfuel.
  assert (Hds : valid_deadlines size (random_deadlines size rands)).
  { split; [unfold random_deadlines; by rewrite length_fmap|].
    apply list.Forall_forall. intros d (r & -> & _)%list_elem_of_fmap.
    apply Z.mod_pos_bound. lia. }
  split; [done|].
  destruct (run_spec fuel main_diag junk size (random_deadlines size rands))
    as (out & f & Hrun & Hlen' & Hgreedy & _); [done..|].
  destruct (greedy_slots _ _ _ _ _ Hgreedy) as (Htasks & Hnd & Hall).
  exists out, f. split_and!; [done|by rewrite Htasks, Hlen'|].
  apply submseteq_length_Permutation.
  - apply NoDup_submseteq; [done|]. intros a Ha. apply elem_of_seqZ.
    apply Hall in Ha. lia.
  - rewrite length_seqZ, length_fmap. lia.
Qed.

Lemma random_run_completes_witness :
  valid_deadlines 3 (random_deadlines 3 [1804289383; 846930886; 1681692777]) ∧
  ∃ out f,
    scheduler 3 (SlotSet 0 0 0) 3
      (random_deadlines 3 [1804289383; 846930886; 1681692777]) = (out, Ret f) ∧
    out.*1 = seqZ 0 3 ∧
    out.*2 ≡ₚ seqZ 0 3.
Proof.
  apply random_run_completes.
  - lia.
  - reflexivity.
  - simpl. lia.
Defined.

(** *** The format strings *)

Ltac evaluate t :=
  let v := eval vm_compute in t in
  let H := fresh in
  assert (H : t = v) by (vm_compute; reflexivity); rewrite H; clear H.

(** The arrays declared for the format strings are too short for small
    sizes.  For every value [1 .. 10] that [format_length] can take, the
    format that [sprintf] stores (with its final zero byte) fits the array
    declared for it exactly when [format_length >= 3]: this holds for
    [task_description] and [schedule_description] in [main] and for
    [table_field] in [display_all_sets].  For [format_length] 1 or 2 each
    of the three calls stores bytes past the end of its array. *)
Theorem format_buffers_fit format_length :
  1 ≤ format_length ≤ 10 →
  (bytes_written (task_description format_length)
     ≤ task_description_size format_length ↔ 3 ≤ format_length) ∧
  (bytes_written (schedule_description format_length)
     ≤ schedule_description_size format_length ↔ 3 ≤ format_length) ∧
  (bytes_written (table_field format_length)
     ≤ table_field_size format_length ↔ 3 ≤ format_length).
Proof.
  intros Hfl.
  assert (Hcases : format_length ∈ seqZ 1 10) by (apply elem_of_seqZ; lia).
  clear Hfl. revert format_length Hcases.
  apply list.Forall_forall.
  change (seqZ 1 10) with [1; 2; 3; 4; 5; 6; 7; 8; 9; 10].
  repeat (apply Forall_cons; split;
          [repeat match goal with
                  | |- context [bytes_written ?s] => evaluate (bytes_written s)
                  | |- context [task_description_size ?n] =>
                      evaluate (task_description_size n)
                  | |- context [schedule_description_size ?n] =>
                      evaluate (schedule_description_size n)
                  | |- context [table_field_size ?n] =>
                      evaluate (table_field_size n)
                  end; lia |]).
  apply Forall_nil_2.
Qed.

Lemma format_buffers_fit_witness :
  (bytes_written (task_description 2) ≤ task_description_size 2 ↔ 3 ≤ 2) ∧
  (bytes_written (schedule_description 2)
     ≤ schedule_description_size 2 ↔ 3 ≤ 2) ∧
  (bytes_written (table_field 2) ≤ table_field_size 2 ↔ 3 ≤ 2).
Proof.
  apply format_buffers_fit. lia.
Defined.
